(** * Tolerant extraction of points and boxes from model output

    A shallow embedding of [src/utils.py]: [safe_json_load],
    [decode_json_points] and [decode_json_bboxes], together with the parts of
    the Python runtime they call ([re.search], [re.sub], [str.strip],
    [json.loads], [float], [len], [in], subscripting, tuple unpacking).

    Python values are an inductive type, a [str] is the list of its code
    points, exceptions are a result type, and the two lists the extractors
    append to are an explicit state that survives a caught exception. *)

From Stdlib Require Import List ZArith NArith Bool Lia Ascii.
From Stdlib Require String.
From Stdlib Require Import Floats.SpecFloat.
Import ListNotations.
Import String.StringSyntax.
Abbreviation string := String.string.
Open Scope string_scope.
Open Scope list_scope.

(** ** Text *)

Module Text.

(** A character is a Unicode code point, a [str] a sequence of them. *)
Definition char := N.
Definition str := list char.

Definition ord (a : ascii) : char := N_of_ascii a.

(** [lit "abc"] is the Python literal ['abc'] (ASCII only). *)
Definition lit (s : string) : str := List.map ord (String.list_ascii_of_string s).

Definition dquote : char := 34%N.
Definition squote : char := 39%N.

(** [q "abc"] is the text ["abc"], double quotes included. *)
Definition q (s : string) : str := dquote :: lit s ++ [dquote].

Definition char_eqb (a b : char) : bool := N.eqb a b.

Fixpoint str_eqb (a b : str) : bool :=
  match a, b with
  | [], [] => true
  | x :: a', y :: b' => char_eqb x y && str_eqb a' b'
  | _, _ => false
  end.

Fixpoint startswith (p s : str) : bool :=
  match p, s with
  | [], _ => true
  | x :: p', y :: s' => char_eqb x y && startswith p' s'
  | _ :: _, [] => false
  end.

(** [sub in s] on two strings: [sub] occurs somewhere in [s]. *)
Fixpoint occurs (sub s : str) : bool :=
  startswith sub s ||
  match s with
  | [] => false
  | _ :: s' => occurs sub s'
  end.

(** [str.isspace] on one character, which is also what [\s] matches in a
    [str] pattern: the Unicode white space of CPython. *)
Definition isspace (c : char) : bool :=
  ((9 <=? c) && (c <=? 13) || (28 <=? c) && (c <=? 32) ||
   (c =? 133) || (c =? 160) || (c =? 5760) ||
   (8192 <=? c) && (c <=? 8202) ||
   (c =? 8232) || (c =? 8233) || (c =? 8239) || (c =? 8287) ||
   (c =? 12288))%N.

Fixpoint lstrip (s : str) : str :=
  match s with
  | c :: s' => if isspace c then lstrip s' else s
  | [] => []
  end.

(** [s.strip()] *)
Definition strip (s : str) : str := rev (lstrip (rev (lstrip s))).

End Text.
Import Text.

(** ** Regular expressions

    The fragment of [re] the source uses, matched the way [re] does it:
    by backtracking, leftmost first, a greedy star trying the longest run
    first and a lazy star the shortest. *)

Module Re.

Inductive regex :=
| Eps
| Chr (c : char)                          (* a literal character *)
| Seq (r1 r2 : regex)
| Star (greedy : bool) (cls : char -> bool)  (* [cls*] or [cls*?] *)
| Opt (r : regex)                         (* [(?:r)?] *)
| Group (r : regex).                      (* [(r)], the only group *)

Fixpoint Lit (s : str) : regex :=
  match s with
  | [] => Eps
  | c :: s' => Seq (Chr c) (Lit s')
  end.

Section Matcher.
Variable A : Type.

(** [cls*]: as many characters as possible, giving them back one by one
    while the rest of the pattern fails. *)
Fixpoint star_greedy (cls : char -> bool) (s : str)
    (k : str -> option A) : option A :=
  match s with
  | c :: s' =>
      if cls c then
        match star_greedy cls s' k with
        | Some a => Some a
        | None => k s
        end
      else k s
  | [] => k []
  end.

(** [cls*?]: as few characters as possible, taking one more each time the
    rest of the pattern fails. *)
Fixpoint star_lazy (cls : char -> bool) (s : str)
    (k : str -> option A) : option A :=
  match k s with
  | Some a => Some a
  | None =>
      match s with
      | c :: s' => if cls c then star_lazy cls s' k else None
      | [] => None
      end
  end.

(** [rmatch r s g k]: match [r] at the start of [s]; [g] is what group 1
    holds so far; [k] is the rest of the pattern, given the text left. *)
Fixpoint rmatch (r : regex) (s : str) (g : option str)
    (k : str -> option str -> option A) : option A :=
  match r with
  | Eps => k s g
  | Chr c =>
      match s with
      | x :: s' => if char_eqb x c then k s' g else None
      | [] => None
      end
  | Seq r1 r2 => rmatch r1 s g (fun s' g' => rmatch r2 s' g' k)
  | Star true cls => star_greedy cls s (fun s' => k s' g)
  | Star false cls => star_lazy cls s (fun s' => k s' g)
  | Opt r1 =>
      match rmatch r1 s g k with
      | Some a => Some a
      | None => k s g
      end
  | Group r1 =>
      rmatch r1 s g
        (fun s' _ => k s' (Some (firstn (length s - length s') s)))
  end.

End Matcher.
Arguments star_greedy {A} cls s k.
Arguments star_lazy {A} cls s k.
Arguments rmatch {A} r s g k.

(** A match: what group 1 captured and the text after the match. *)
Record rematch := { group1 : str; after : str }.

Definition match_here (r : regex) (s : str) : option rematch :=
  rmatch r s None
    (fun s' g => Some {| group1 := match g with Some x => x | None => [] end;
                         after := s' |}).

(** [re.search(r, s)]: the match at the leftmost position that has one. *)
Fixpoint search (r : regex) (s : str) : option rematch :=
  match match_here r s with
  | Some m => Some m
  | None =>
      match s with
      | [] => None
      | _ :: s' => search r s'
      end
  end.

(** [re.sub(r, repl, s)]: every leftmost non-overlapping match is replaced
    by [repl] applied to its group 1, the text between matches is copied.
    A match that consumes nothing is followed by one copied character; the
    three patterns of the source never match the empty string. *)
Fixpoint sub_fuel (fuel : nat) (r : regex) (repl : str -> str) (s : str)
    : str :=
  match fuel with
  | O => s
  | S fuel' =>
      match match_here r s with
      | Some m =>
          if length (after m) <? length s
          then repl (group1 m) ++ sub_fuel fuel' r repl (after m)
          else
            match s with
            | [] => repl (group1 m)
            | c :: s' => repl (group1 m) ++ c :: sub_fuel fuel' r repl s'
            end
      | None =>
          match s with
          | [] => []
          | c :: s' => c :: sub_fuel fuel' r repl s'
          end
      end
  end.

Definition sub (r : regex) (repl : str -> str) (s : str) : str :=
  sub_fuel (S (length s)) r repl s.

Definition any (c : char) : bool := true.

End Re.

(** ** The three patterns of [safe_json_load] *)

(** The fence pattern: three backticks, [json], [\s*], a lazy group of any
    characters ([re.DOTALL]), [\s*], three backticks. *)
Definition fence_re : Re.regex :=
  Re.Seq (Re.Lit (lit "```json"))
    (Re.Seq (Re.Star true isspace)
      (Re.Seq (Re.Group (Re.Star false Re.any))
        (Re.Seq (Re.Star true isspace) (Re.Lit (lit "```"))))).

Definition not_squote (c : char) : bool := negb (char_eqb c squote).

(** The quote pattern: a single quote, a greedy group of characters other
    than the single quote, a single quote. *)
Definition quote_re : Re.regex :=
  Re.Seq (Re.Chr squote)
    (Re.Seq (Re.Group (Re.Star true not_squote)) (Re.Chr squote)).

(** Its replacement: group 1 between two double quotes. *)
Definition quote_repl (g : str) : str := dquote :: g ++ [dquote].

(** The trailing-comma patterns: a comma, [\s*], then the closer. *)
Definition comma_re (closer : char) : Re.regex :=
  Re.Seq (Re.Chr (ord ","))
    (Re.Seq (Re.Star true isspace) (Re.Chr closer)).

Definition rbrace : char := ord "}".
Definition rbracket : char := ord "]".

(** ** Python values *)

Module Py.

Definition float := spec_float.

#[warnings="-register-all"]
Inductive pyval :=
| PNone
| PBool (b : bool)
| PInt (n : Z)
| PFloat (f : float)
| PStr (s : str)
| PList (l : list pyval)
| PDict (d : list (str * pyval)).   (* keys in insertion order, no key twice *)

Inductive exn :=
| TypeError
| ValueError
| JSONDecodeError       (* a subclass of ValueError *)
| OverflowError
| RecursionError
| KeyError
| AttributeError.

Definition exn_eqb (a b : exn) : bool :=
  match a, b with
  | TypeError, TypeError | ValueError, ValueError
  | JSONDecodeError, JSONDecodeError | OverflowError, OverflowError
  | RecursionError, RecursionError | KeyError, KeyError
  | AttributeError, AttributeError => true
  | _, _ => false
  end.

(** [isinstance(e, cls)] for the exception classes above. *)
Definition exn_isinstance (e cls : exn) : bool :=
  exn_eqb e cls ||
  match e, cls with
  | JSONDecodeError, ValueError => true
  | _, _ => false
  end.

Inductive result (A : Type) :=
| Ok (a : A)
| Raise (e : exn).
Arguments Ok {A} a.
Arguments Raise {A} e.

Definition bind {A B} (m : result A) (f : A -> result B) : result B :=
  match m with
  | Ok a => f a
  | Raise e => Raise e
  end.

(** What the interpreter and its tables contribute and the source does not
    fix: how many calls of the scanner of [json.loads] may nest before
    [RecursionError] (one per value, so one more than the containers
    around a number or string), the digit
    limit of [int] ([sys.get_int_max_str_digits()], 0 for none), the decimal
    value of a non-ASCII digit ([unicodedata.decimal]), and [str()] of a
    float, list or dict. *)
Record runtime := {
  recursion_limit : nat;
  int_max_str_digits : nat;
  unicode_decimal : char -> option N;
  repr : pyval -> str
}.

(** *** Dictionaries *)

Fixpoint dict_get (k : str) (d : list (str * pyval)) : option pyval :=
  match d with
  | [] => None
  | (k', v) :: d' => if str_eqb k' k then Some v else dict_get k d'
  end.

(** [d[k] = v]: a key already present keeps its place. *)
Fixpoint dict_set (k : str) (v : pyval) (d : list (str * pyval))
    : list (str * pyval) :=
  match d with
  | [] => [(k, v)]
  | (k', v') :: d' =>
      if str_eqb k' k then (k', v) :: d' else (k', v') :: dict_set k v d'
  end.

(** [dict(pairs)] *)
Definition dict_of_pairs (pairs : list (str * pyval)) : list (str * pyval) :=
  fold_left (fun d kv => dict_set (fst kv) (snd kv) d) pairs [].

(** *** Numbers *)

Definition prec : Z := 53.
Definition emax : Z := 1024.

Definition is_digit (c : char) : bool := ((48 <=? c) && (c <=? 57))%N.

Definition digit_val (c : char) : Z := Z.of_N (c - 48).

(** The value of a run of ASCII digits. *)
Definition digits_val (ds : str) : Z :=
  fold_left (fun acc c => 10 * acc + digit_val c)%Z ds 0%Z.

Fixpoint span (p : char -> bool) (s : str) : str * str :=
  match s with
  | c :: s' =>
      if p c then let '(a, b) := span p s' in (c :: a, b) else ([], s)
  | [] => ([], [])
  end.

(** The double nearest to [(-1)^neg * m * 10^e], ties to even: what
    [float] makes of a decimal numeral. *)
Definition float_of_decimal (neg : bool) (m : Z) (e : Z) : float :=
  match m with
  | Zpos p =>
      match e with
      | Zneg k =>
          SFdiv prec emax (S754_finite neg p 0)
            (S754_finite false (Pos.pow 10 k) 0)
      | _ => binary_round prec emax neg (Z.to_pos (Zpos p * 10 ^ e)) 0
      end
  | _ => S754_zero neg
  end.

(** [float(n)] on an int: the nearest double, [OverflowError] when that
    is out of range. *)
Definition float_of_int (n : Z) : result float :=
  match binary_normalize prec emax n 0 false with
  | S754_infinity _ => Raise OverflowError
  | f => Ok f
  end.

Definition lower (c : char) : char :=
  if ((65 <=? c) && (c <=? 90))%N then (c + 32)%N else c.

Definition split_sign (s : str) : bool * str :=
  match s with
  | c :: t =>
      if char_eqb c (ord "-") then (true, t)
      else if char_eqb c (ord "+") then (false, t)
      else (false, s)
  | [] => (false, [])
  end.

(** The numeral grammar of [float]: a sign, then [inf], [infinity] or [nan]
    in any case, or digits with an optional point and an optional
    exponent, at least one digit before the exponent; nothing may follow. *)
Definition float_of_numeral (s : str) : option float :=
  let '(neg, s1) := split_sign s in
  let low := List.map lower s1 in
  if str_eqb low (lit "inf") || str_eqb low (lit "infinity")
  then Some (S754_infinity neg)
  else if str_eqb low (lit "nan") then Some S754_nan
  else
    let '(ip, s2) := span is_digit s1 in
    let '(fp, s3) :=
      match s2 with
      | c :: t => if char_eqb c (ord ".") then span is_digit t else ([], s2)
      | [] => ([], s2)
      end in
    match ip ++ fp with
    | [] => None
    | _ :: _ =>
        let m := digits_val (ip ++ fp) in
        let scale := Z.of_nat (length fp) in
        match s3 with
        | [] => Some (float_of_decimal neg m (- scale))
        | c :: t =>
            if char_eqb (lower c) (ord "e") then
              let '(eneg, t1) := split_sign t in
              match span is_digit t1 with
              | ((_ :: _) as ed, []) =>
                  let x := digits_val ed in
                  Some (float_of_decimal neg m
                          ((if eneg then - x else x) - scale))
              | _ => None
              end
            else None
        end
    end.

(** Underscores in a numeral ([1_000.5]): allowed between two digits only;
    [None] when one is misplaced, else the numeral without them. *)
Fixpoint strip_underscores (prev : char) (s : str) : option str :=
  match s with
  | [] => if char_eqb prev (ord "_") then None else Some []
  | c :: s' =>
      if char_eqb c (ord "_") then
        if is_digit prev then strip_underscores c s' else None
      else if char_eqb prev (ord "_") && negb (is_digit c) then None
      else option_map (cons c) (strip_underscores c s')
  end.

(** White space for the C library: what [float] strips at both ends. *)
Definition isspace_ascii (c : char) : bool :=
  ((9 <=? c) && (c <=? 13) || (c =? 32))%N.

Fixpoint lstrip_ascii (s : str) : str :=
  match s with
  | c :: s' => if isspace_ascii c then lstrip_ascii s' else s
  | [] => []
  end.

(** The decimal numeral of a natural number, as [str(n)] writes it. *)
Fixpoint decimal_fuel (fuel : nat) (n : N) (acc : str) : str :=
  match fuel with
  | O => acc
  | S fuel' =>
      let acc' := (48 + n mod 10)%N :: acc in
      if (n <? 10)%N then acc' else decimal_fuel fuel' (n / 10)%N acc'
  end.

Definition decimal_of_N (n : N) : str :=
  decimal_fuel (S (N.to_nat (N.log2 n))) n [].

Definition decimal_of_Z (n : Z) : str :=
  match n with
  | Zneg p => ord "-" :: decimal_of_N (Npos p)
  | _ => decimal_of_N (Z.to_N n)
  end.

Section WithRuntime.
Variable rt : runtime.

(** Before the numeral is read, a non-ASCII space becomes a space, a
    non-ASCII decimal digit its ASCII digit, and the text is cut after the
    first other non-ASCII character, which becomes [?]. *)
Fixpoint to_ascii_decimal (s : str) : str :=
  match s with
  | [] => []
  | c :: s' =>
      if (c <? 127)%N then c :: to_ascii_decimal s'
      else if isspace c then ord " " :: to_ascii_decimal s'
      else
        match unicode_decimal rt c with
        | Some d => (48 + d)%N :: to_ascii_decimal s'
        | None => [ord "?"]
        end
  end.

(** [float(s)] on a [str]: underscores are taken out first, then white
    space is stripped at both ends, then the numeral is read. *)
Definition float_of_str (s : str) : result float :=
  match strip_underscores 0%N (to_ascii_decimal s) with
  | None => Raise ValueError
  | Some t =>
      match float_of_numeral (rev (lstrip_ascii (rev (lstrip_ascii t)))) with
      | Some f => Ok f
      | None => Raise ValueError
      end
  end.

(** [float(x)] *)
Definition py_float (x : pyval) : result float :=
  match x with
  | PFloat f => Ok f
  | PInt n => float_of_int n
  | PBool b => float_of_int (if b then 1 else 0)
  | PStr s => float_of_str s
  | PNone | PList _ | PDict _ => Raise TypeError
  end.

(** [str(x)] *)
Definition py_str (x : pyval) : str :=
  match x with
  | PStr s => s
  | PNone => lit "None"
  | PBool true => lit "True"
  | PBool false => lit "False"
  | PInt n => decimal_of_Z n
  | PFloat _ | PList _ | PDict _ => repr rt x
  end.

End WithRuntime.

(** [not x] *)
Definition py_not (x : pyval) : bool :=
  match x with
  | PNone => true
  | PBool b => negb b
  | PInt n => Z.eqb n 0
  | PFloat (S754_zero _) => true
  | PFloat _ => false
  | PStr s => match s with [] => true | _ => false end
  | PList l => match l with [] => true | _ => false end
  | PDict d => match d with [] => true | _ => false end
  end.

(** [isinstance(x, dict)] *)
Definition is_dict (x : pyval) : bool :=
  match x with
  | PDict _ => true
  | _ => false
  end.

(** What [iter(x)] yields: the elements of a list, the characters of a
    string, the keys of a dict. *)
Definition py_iter (x : pyval) : result (list pyval) :=
  match x with
  | PList l => Ok l
  | PStr s => Ok (List.map (fun c => PStr [c]) s)
  | PDict d => Ok (List.map (fun kv => PStr (fst kv)) d)
  | PNone | PBool _ | PInt _ | PFloat _ => Raise TypeError
  end.

(** [len(x)] *)
Definition py_len (x : pyval) : result nat :=
  match x with
  | PList l => Ok (length l)
  | PStr s => Ok (length s)
  | PDict d => Ok (length d)
  | PNone | PBool _ | PInt _ | PFloat _ => Raise TypeError
  end.

(** [k == x] for a string [k] *)
Definition str_equals (k : str) (x : pyval) : bool :=
  match x with
  | PStr s => str_eqb s k
  | _ => false
  end.

(** [k in x] for a string [k]: a key of a dict, an element of a list, a
    substring of a string. *)
Definition py_contains (k : str) (x : pyval) : result bool :=
  match x with
  | PDict d => Ok (match dict_get k d with Some _ => true | None => false end)
  | PList l => Ok (existsb (str_equals k) l)
  | PStr s => Ok (occurs k s)
  | PNone | PBool _ | PInt _ | PFloat _ => Raise TypeError
  end.

(** [x[k]] for a string [k] *)
Definition py_getitem (x : pyval) (k : str) : result pyval :=
  match x with
  | PDict d =>
      match dict_get k d with
      | Some v => Ok v
      | None => Raise KeyError
      end
  | _ => Raise TypeError
  end.

(** [x.get(k, default)] *)
Definition py_get (x : pyval) (k : str) (default : pyval) : result pyval :=
  match x with
  | PDict d =>
      match dict_get k d with
      | Some v => Ok v
      | None => Ok default
      end
  | _ => Raise AttributeError
  end.

(** [a, b = x]: [x] must yield exactly two values. *)
Definition py_unpack2 (x : pyval) : result (pyval * pyval) :=
  bind (py_iter x) (fun items =>
  match items with
  | [a; b] => Ok (a, b)
  | _ => Raise ValueError
  end).

End Py.

(** ** [json.loads]

    The decoder of the standard library with its default hooks, written
    over the text that is left instead of over an index into the text. *)

Module Json.
Import Py.

Definition is_ws (c : char) : bool :=
  char_eqb c 32%N || char_eqb c 9%N || char_eqb c 10%N || char_eqb c 13%N.

Fixpoint skip_ws (s : str) : str :=
  match s with
  | c :: s' => if is_ws c then skip_ws s' else s
  | [] => []
  end.

Definition hex_val (c : char) : option N :=
  if ((48 <=? c) && (c <=? 57))%N then Some (c - 48)%N
  else if ((97 <=? c) && (c <=? 102))%N then Some (c - 87)%N
  else if ((65 <=? c) && (c <=? 70))%N then Some (c - 55)%N
  else None.

Definition hex4 (a b c d : char) : option N :=
  match hex_val a, hex_val b, hex_val c, hex_val d with
  | Some x, Some y, Some z, Some w =>
      Some (((x * 16 + y) * 16 + z) * 16 + w)%N
  | _, _, _, _ => None
  end.

Definition is_high_surrogate (u : N) : bool :=
  ((55296 <=? u) && (u <=? 56319))%N.
Definition is_low_surrogate (u : N) : bool :=
  ((56320 <=? u) && (u <=? 57343))%N.
Definition join_surrogates (hi lo : N) : N :=
  (65536 + N.lor (N.shiftl (hi - 55296) 10) (lo - 56320))%N.

(** The one-character escapes after a backslash. *)
Definition backslash_escape (c : char) : option char :=
  if char_eqb c dquote then Some dquote
  else if char_eqb c (ord "\") then Some (ord "\")
  else if char_eqb c (ord "/") then Some (ord "/")
  else if char_eqb c (ord "b") then Some 8%N
  else if char_eqb c (ord "f") then Some 12%N
  else if char_eqb c (ord "n") then Some 10%N
  else if char_eqb c (ord "r") then Some 13%N
  else if char_eqb c (ord "t") then Some 9%N
  else None.

Definition push (c : char) (r : result (str * str)) : result (str * str) :=
  bind r (fun '(cs, rest) => Ok (c :: cs, rest)).

(** [scanstring], strict: the text after the opening quote gives the
    decoded string and the text after the closing quote. *)
Fixpoint scanstring (s : str) : result (str * str) :=
  match s with
  | [] => Raise JSONDecodeError
  | c :: t =>
      if char_eqb c dquote then Ok ([], t)
      else if char_eqb c (ord "\") then
        match t with
        | [] => Raise JSONDecodeError
        | esc :: t1 =>
            if char_eqb esc (ord "u") then
              match t1 with
              | h1 :: h2 :: h3 :: h4 :: t2 =>
                  match hex4 h1 h2 h3 h4 with
                  | None => Raise JSONDecodeError
                  | Some uni =>
                      match t2 with
                      | b :: u :: t3 =>
                          if is_high_surrogate uni && char_eqb b (ord "\")
                             && char_eqb u (ord "u")
                          then
                            match t3 with
                            | g1 :: g2 :: g3 :: g4 :: t4 =>
                                match hex4 g1 g2 g3 g4 with
                                | None => Raise JSONDecodeError
                                | Some uni2 =>
                                    if is_low_surrogate uni2
                                    then push (join_surrogates uni uni2)
                                           (scanstring t4)
                                    else push uni (scanstring t2)
                                end
                            | _ => Raise JSONDecodeError
                            end
                          else push uni (scanstring t2)
                      | _ => push uni (scanstring t2)
                      end
                  end
              | _ => Raise JSONDecodeError
              end
            else
              match backslash_escape esc with
              | Some x => push x (scanstring t1)
              | None => Raise JSONDecodeError
              end
        end
      else if (c <? 32)%N then Raise JSONDecodeError
      else push c (scanstring t)
  end.

Definition is_digit19 (c : char) : bool := ((49 <=? c) && (c <=? 57))%N.

(** The number at the start of the text, as the three groups of the
    scanner and the text left: first the integer, a minus sign if any,
    then [0] or a run of digits that does not begin with [0]. *)
Definition integer_group (s : str) : option (str * str) :=
  let '(sign, s1) :=
    match s with
    | c :: t => if char_eqb c (ord "-") then ([c], t) else ([], s)
    | [] => ([], [])
    end in
  match s1 with
  | [] => None
  | c :: t =>
      if char_eqb c (ord "0") then Some (sign ++ [c], t)
      else if is_digit19 c
      then let '(ds, r) := span is_digit t in Some (sign ++ c :: ds, r)
      else None
  end.

(** The fraction: a point and at least one digit, or nothing. *)
Definition frac_group (s : str) : str * str :=
  match s with
  | dot :: d :: t =>
      if char_eqb dot (ord ".") && is_digit d
      then let '(ds, r) := span is_digit t in (dot :: d :: ds, r)
      else ([], s)
  | _ => ([], s)
  end.

(** The exponent: [e] or [E], a sign if any, at least one digit, or
    nothing. *)
Definition exp_group (s : str) : str * str :=
  match s with
  | e :: t =>
      if char_eqb (lower e) (ord "e") then
        let '(sg, t1) :=
          match t with
          | c :: t' =>
              if char_eqb c (ord "-") || char_eqb c (ord "+")
              then ([c], t') else ([], t)
          | [] => ([], [])
          end in
        match span is_digit t1 with
        | ((_ :: _) as ds, r) => (e :: sg ++ ds, r)
        | _ => ([], s)
        end
      else ([], s)
  | [] => ([], s)
  end.

Definition match_number (s : str) : option (str * str * str * str) :=
  match integer_group s with
  | None => None
  | Some (integer, r1) =>
      let '(frac, r2) := frac_group r1 in
      let '(exp, r3) := exp_group r2 in
      Some (integer, frac, exp, r3)
  end.

Section Decoder.
Variable rt : runtime.

(** [int(integer)] on the integer group of a number: [ValueError] past the
    digit limit, which CPython consults from 641 digits on. *)
Definition parse_int (integer : str) : result pyval :=
  let '(neg, ds) :=
    match integer with
    | c :: t => if char_eqb c (ord "-") then (true, t) else (false, integer)
    | [] => (false, [])
    end in
  let n := length ds in
  if (640 <? n) && (0 <? int_max_str_digits rt)
     && (int_max_str_digits rt <? n)
  then Raise ValueError
  else Ok (PInt (if neg then - digits_val ds else digits_val ds)%Z).

Definition parse_float (numeral : str) : result pyval :=
  bind (float_of_str rt numeral) (fun f => Ok (PFloat f)).

Section Containers.
(** [scan_once] as the two container parsers receive it. *)
Variable scan : str -> result (pyval * str).

(** The loop of [JSONArray], entered at the first element. Every turn
    consumes a character, so [fuel] above the length of [s] never runs
    out. *)
Fixpoint array_loop (fuel : nat) (s : str) (values : list pyval)
    : result (pyval * str) :=
  match fuel with
  | O => Raise JSONDecodeError
  | S fuel' =>
      bind (scan s) (fun '(value, r) =>
      let values := values ++ [value] in
      match skip_ws r with
      | c :: r1 =>
          if char_eqb c rbracket then Ok (PList values, r1)
          else if char_eqb c (ord ",")
          then array_loop fuel' (skip_ws r1) values
          else Raise JSONDecodeError
      | [] => Raise JSONDecodeError
      end)
  end.

(** [JSONArray] on the text after the opening bracket. *)
Definition JSONArray (s : str) : result (pyval * str) :=
  let s1 := skip_ws s in
  match s1 with
  | c :: r =>
      if char_eqb c rbracket then Ok (PList [], r)
      else array_loop (S (length s1)) s1 []
  | [] => array_loop 1 s1 []
  end.

(** The loop of [JSONObject], entered after the quote that opens a key;
    [fuel] as in [array_loop]. *)
Fixpoint object_loop (fuel : nat) (s : str) (pairs : list (str * pyval))
    : result (pyval * str) :=
  match fuel with
  | O => Raise JSONDecodeError
  | S fuel' =>
      bind (scanstring s) (fun '(key, r) =>
      match skip_ws r with
      | c :: r1 =>
          if char_eqb c (ord ":") then
            bind (scan (skip_ws r1)) (fun '(value, r2) =>
            let pairs := pairs ++ [(key, value)] in
            match skip_ws r2 with
            | c' :: r3 =>
                if char_eqb c' rbrace
                then Ok (PDict (dict_of_pairs pairs), r3)
                else if char_eqb c' (ord ",") then
                  match skip_ws r3 with
                  | c'' :: r4 =>
                      if char_eqb c'' dquote
                      then object_loop fuel' r4 pairs
                      else Raise JSONDecodeError
                  | [] => Raise JSONDecodeError
                  end
                else Raise JSONDecodeError
            | [] => Raise JSONDecodeError
            end)
          else Raise JSONDecodeError
      | [] => Raise JSONDecodeError
      end)
  end.

(** [JSONObject] on the text after the opening brace. *)
Definition JSONObject (s : str) : result (pyval * str) :=
  match skip_ws s with
  | c :: r =>
      if char_eqb c rbrace then Ok (PDict [], r)
      else if char_eqb c dquote then object_loop (S (length r)) r []
      else Raise JSONDecodeError
  | [] => Raise JSONDecodeError
  end.

End Containers.

(** [scan_once]: the value at the start of the text and the text after
    it. [depth] is how many calls of [scan_once] may still nest. *)
Fixpoint scan_once (depth : nat) (s : str) : result (pyval * str) :=
  match depth with
  | O => Raise RecursionError
  | S d =>
      match s with
      | [] => Raise JSONDecodeError
      | c :: t =>
          if char_eqb c dquote
          then bind (scanstring t) (fun '(v, r) => Ok (PStr v, r))
          else if char_eqb c (ord "{") then JSONObject (scan_once d) t
          else if char_eqb c (ord "[") then JSONArray (scan_once d) t
          else if startswith (lit "null") s then Ok (PNone, skipn 4 s)
          else if startswith (lit "true") s then Ok (PBool true, skipn 4 s)
          else if startswith (lit "false") s
          then Ok (PBool false, skipn 5 s)
          else
            match match_number s with
            | Some (integer, frac, exp, r) =>
                match frac ++ exp with
                | [] => bind (parse_int integer) (fun v => Ok (v, r))
                | _ :: _ =>
                    bind (parse_float (integer ++ frac ++ exp))
                         (fun v => Ok (v, r))
                end
            | None =>
                if startswith (lit "NaN") s
                then Ok (PFloat S754_nan, skipn 3 s)
                else if startswith (lit "Infinity") s
                then Ok (PFloat (S754_infinity false), skipn 8 s)
                else if startswith (lit "-Infinity") s
                then Ok (PFloat (S754_infinity true), skipn 9 s)
                else Raise JSONDecodeError
            end
      end
  end.

(** [json.loads(s)] for a [str]. *)
Definition loads (s : str) : result pyval :=
  match s with
  | 65279%N :: _ => Raise JSONDecodeError   (* a byte order mark *)
  | _ =>
      bind (scan_once (recursion_limit rt) (skip_ws s)) (fun '(obj, r) =>
      match skip_ws r with
      | [] => Ok obj
      | _ :: _ => Raise JSONDecodeError      (* extra data *)
      end)
  end.

End Decoder.

End Json.

(** ** [src/utils.py] *)

Module Utils.
Import Py.

(** The state of an extractor: the two lists it appends to. *)
Record lists := { coords : list (list float); labels : list str }.

(** A statement: it runs in a state and ends normally or by raising, in
    a state either way. *)
Definition stmt (A : Type) := lists -> result A * lists.

Definition ret {A} (a : A) : stmt A := fun st => (Ok a, st).

Definition seq {A B} (m : stmt A) (f : A -> stmt B) : stmt B :=
  fun st =>
    match m st with
    | (Ok a, st') => f a st'
    | (Raise e, st') => (Raise e, st')
    end.

(** An expression that touches neither list. *)
Definition eval {A} (r : result A) : stmt A := fun st => (r, st).

(** [try: body / except classes: handler] *)
Definition try_except (body : stmt unit) (classes : list exn)
    (handler : stmt unit) : stmt unit :=
  fun st =>
    match body st with
    | (Ok u, st') => (Ok u, st')
    | (Raise e, st') =>
        if existsb (exn_isinstance e) classes
        then handler st' else (Raise e, st')
    end.

Definition append_coords (c : list float) : stmt unit :=
  fun st => (Ok tt, {| coords := coords st ++ [c]; labels := labels st |}).

Definition append_label (l : str) : stmt unit :=
  fun st => (Ok tt, {| coords := coords st; labels := labels st ++ [l] |}).

Definition len_coords : stmt nat := fun st => (Ok (length (coords st)), st).

Notation "x <- m ;; f" := (seq m (fun x => f))
  (at level 61, m at next level, right associativity).
Notation "m ;;; f" := (seq m (fun _ => f))
  (at level 61, right associativity).

(** [for item in items: body(item)], no [break] in the source. *)
Fixpoint for_each (items : list pyval) (body : pyval -> stmt unit)
    : stmt unit :=
  match items with
  | [] => ret tt
  | item :: rest => body item ;;; for_each rest body
  end.

(** [x_min, y_min, x_max, y_max = map(float, coords)]: the targets pull
    one converted value each, then one more to see that none is left. *)
Fixpoint unpack_floats (rt : runtime) (n : nat) (items : list pyval)
    : result (list float) :=
  match n, items with
  | O, [] => Ok []
  | O, x :: _ => bind (py_float rt x) (fun _ => Raise ValueError)
  | S _, [] => Raise ValueError
  | S n', x :: rest =>
      bind (py_float rt x) (fun f =>
      bind (unpack_floats rt n' rest) (fun fs => Ok (f :: fs)))
  end.

Section WithRuntime.
Variable rt : runtime.

(** Lines 11-13: the text the repairs work on. *)
Definition fenced (text : str) : str :=
  match Re.search fence_re text with
  | Some m => strip (Re.group1 m)
  | None => text
  end.

(** Lines 18-21: the three substitutions. *)
Definition repair (text : str) : str :=
  let text := Re.sub quote_re quote_repl text in
  let text := Re.sub (comma_re rbrace) (fun _ => [rbrace]) text in
  Re.sub (comma_re rbracket) (fun _ => [rbracket]) text.

(** [safe_json_load(text)]: the payload, [None] when parsing raised, and
    what was printed: one line per exception, standing for its message. *)
Definition safe_json_load (text : str) : pyval * list exn :=
  match Json.loads rt (repair (fenced text)) with
  | Ok data => (data, [])
  | Raise e => (PNone, [e])
  end.

(** Lines 43-47, the body of the [try] of [decode_json_points]. *)
Definition point_body (item : pyval) : stmt unit :=
  v <- eval (py_getitem item (lit "point_2d")) ;;
  xy <- eval (py_unpack2 v) ;;
  x <- eval (py_float rt (fst xy)) ;;
  y <- eval (py_float rt (snd xy)) ;;
  append_coords [x; y] ;;;
  n <- len_coords ;;
  label <- eval (py_get item (lit "label")
                   (PStr (lit "point_" ++ decimal_of_N (N.of_nat n)))) ;;
  append_label (py_str rt label).

(** Lines 41-49, one turn of the loop. *)
Definition point_item (item : pyval) : stmt unit :=
  has <- eval (py_contains (lit "point_2d") item) ;;
  if has : bool
  then try_except (point_body item) [TypeError; ValueError] (ret tt)
  else ret tt.

(** The extractor after its first line, which both extractors share up
    to the loop body. *)
Definition extract (loop_body : pyval -> stmt unit) (data : pyval)
    : result (list (list float) * list str) :=
  if py_not data then Ok ([], [])
  else
    let data := if is_dict data then PList [data] else data in
    bind (py_iter data) (fun items =>
    match for_each items loop_body {| coords := []; labels := [] |} with
    | (Ok _, st) => Ok (coords st, labels st)
    | (Raise e, _) => Raise e
    end).

(** [decode_json_points(text)]: what it returns or raises, and what it
    printed. *)
Definition decode_json_points (text : str)
    : result (list (list float) * list str) * list exn :=
  let '(data, out) := safe_json_load text in
  (extract point_item data, out).

(** Lines 67-75, the body of the [try] of [decode_json_bboxes]. *)
Definition bbox_body (item : pyval) : stmt unit :=
  cs <- eval (py_getitem item (lit "bbox_2d")) ;;
  n <- eval (py_len cs) ;;
  if negb (Nat.eqb n 4) then ret tt
  else
    its <- eval (py_iter cs) ;;
    box <- eval (unpack_floats rt 4 its) ;;
    append_coords box ;;;
    n <- len_coords ;;
    label <- eval (py_get item (lit "label")
                     (PStr (lit "bbox_" ++ decimal_of_N (N.of_nat n)))) ;;
    append_label (py_str rt label).

(** Lines 66-77, one turn of the loop. *)
Definition bbox_item (item : pyval) : stmt unit :=
  has <- eval (py_contains (lit "bbox_2d") item) ;;
  if has : bool
  then try_except (bbox_body item) [TypeError; ValueError] (ret tt)
  else ret tt.

(** [decode_json_bboxes(text)] *)
Definition decode_json_bboxes (text : str)
    : result (list (list float) * list str) * list exn :=
  let '(data, out) := safe_json_load text in
  (extract bbox_item data, out).

End WithRuntime.

End Utils.

(** ** The plotting functions of [src/utils.py]

    [plot_points] and [plot_bboxes] index into the lists an extractor
    returned, scale the coordinates to the image and call into PIL and
    the notebook. The model keeps their own computations, with the
    exceptions these can raise, and every call to the outside, with its
    arguments, in the order the function makes it. Whether such a call
    returns or raises is the outside's to say: a run is parametrized by
    it and ends at the first call that raises. [Image.open] is taken to
    have returned an image of the given size. *)

Module Plots.
Import Py.

(** What a plotting function does to the outside. *)
Inductive event :=
| PrintError (e : exn)
| PrintRecords (title : str) (records : list (list float))
| PrintDescriptions (descriptions : list str)
| Ellipse (x0 y0 x1 y1 : float) (fill : str)
| Rectangle (x0 y0 x1 y1 : float) (outline : str) (line : Z)
| DrawText (x y : float) (text : str) (fill : str)
| Display.

(** What a plotting function can raise: an exception of the extractor or
    of the arithmetic, one of its own indexing, or whatever a call to
    the outside raised. *)
Inductive raised :=
| Escaped (e : exn)
| IndexError
| ZeroDivisionError
| Outside (call : event).

Inductive outcome (A : Type) :=
| Returned (a : A)
| Failed (r : raised).
Arguments Returned {A} a.
Arguments Failed {A} r.

(** A run: the calls made, and how it ended. *)
Definition io (A : Type) : Type := list event * outcome A.

(** The outside: whether a call returns, given the calls made before
    it. *)
Definition outside : Type := list event -> event -> bool.

(** The outside in which every call returns. *)
Definition quiet : outside := fun _ _ => true.

(** A computation goes on from the calls made so far. *)
Definition prog (A : Type) : Type := list event -> io A.

Definition ret {A} (a : A) : prog A := fun h => (h, Returned a).

Definition fail {A} (r : raised) : prog A := fun h => (h, Failed r).

Definition seq {A B} (m : prog A) (f : A -> prog B) : prog B :=
  fun h =>
    match m h with
    | (h', Returned a) => f a h'
    | (h', Failed r) => (h', Failed r)
    end.

Definition lift {A} (r : result A) : prog A :=
  match r with
  | Ok a => ret a
  | Raise e => fail (Escaped e)
  end.

#[local] Notation "x <- m ;; f" := (seq m (fun x => f))
  (at level 61, m at next level, right associativity).
#[local] Notation "m ;;; f" := (seq m (fun _ => f))
  (at level 61, right associativity).

(** [l[i]] for an index that is not negative. *)
Definition index {A} (l : list A) (i : nat) : prog A :=
  match nth_error l i with
  | Some a => ret a
  | None => fail IndexError
  end.

(** [i % n] on ints that are not negative. *)
Definition modulo (i n : nat) : prog nat :=
  match n with
  | O => fail ZeroDivisionError
  | S _ => ret (Nat.modulo i n)
  end.

(** [x * n], [x - n] and [x + n] for a float [x] and an int [n]: the
    int is converted to a double first. *)
Definition float_op_int (op : float -> float -> float) (x : float) (n : Z)
    : prog float :=
  lift (bind (float_of_int n) (fun y => Ok (op x y))).

Definition mul := float_op_int (SFmul prec emax).
Definition sub := float_op_int (SFsub prec emax).
Definition add := float_op_int (SFadd prec emax).

(** [x > n] for a float and an int of at most 48 bits, which CPython
    converts to a double, exactly, and compares as a double. *)
Definition gt (x : float) (n : Z) : bool :=
  SFltb (binary_normalize prec emax n 0 false) x.

(** [a, b, c, d = l] *)
Definition unpack4 (l : list float) : prog (float * float * float * float) :=
  match l with
  | [a; b; c; d] => ret (a, b, c, d)
  | _ => fail (Escaped ValueError)
  end.

(** [for i, item in enumerate(items): body(i, item)], counting from [i]. *)
Fixpoint for_enumerate {A} (i : nat) (items : list A)
    (body : nat -> A -> prog unit) : prog unit :=
  match items with
  | [] => ret tt
  | item :: rest => body i item ;;; for_enumerate (S i) rest body
  end.

(** [img.size] *)
Record image := { width : Z; height : Z }.

(** Lines 87-91 and 113-117: the colour names written out. *)
Definition palette : list str :=
  [lit "red"; lit "green"; lit "blue"; lit "yellow"; lit "orange";
   lit "pink"; lit "purple"; lit "brown"; lit "gray"; lit "beige";
   lit "turquoise"; lit "cyan"; lit "magenta"; lit "lime"; lit "navy";
   lit "maroon"; lit "teal"; lit "olive"; lit "coral"; lit "lavender";
   lit "violet"; lit "gold"; lit "silver"].

Section Outside.
Variable world : outside.
Variable rt : runtime.

(** Line 6: the names of PIL's colour map. *)
Variable additional_colors : list str.

(** A call to the outside: it is made, and returns or raises. *)
Definition call (e : event) : prog unit :=
  fun h =>
    if world h e then (h ++ [e], Returned tt)
    else (h ++ [e], Failed (Outside e)).

(** The calls an extractor made while it ran. *)
Fixpoint calls (es : list event) : prog unit :=
  match es with
  | [] => ret tt
  | e :: rest => call e ;;; calls rest
  end.

Definition colors : list str := palette ++ additional_colors.

(** Lines 101-106, one turn of the loop of [plot_points]. *)
Definition point_mark (img : image) (descriptions : list str)
    (i : nat) (point : list float) : prog unit :=
  k <- modulo i (length colors) ;;
  color <- index colors k ;;
  x <- index point 0 ;;
  abs_x1 <- mul x (width img) ;;
  y <- index point 1 ;;
  abs_y1 <- mul y (height img) ;;
  let radius := 2%Z in
  x0 <- sub abs_x1 radius ;;
  y0 <- sub abs_y1 radius ;;
  x1 <- add abs_x1 radius ;;
  y1 <- add abs_y1 radius ;;
  call (Ellipse x0 y0 x1 y1 color) ;;;
  tx <- sub abs_x1 20 ;;
  ty <- add abs_y1 6 ;;
  d <- index descriptions i ;;
  call (DrawText tx ty d color).

(** [plot_points(img_path, text)], from its first call on. *)
Definition plot_points_in (img : image) (text : str) : io unit :=
  (let '(r, out) := Utils.decode_json_points rt text in
   calls (map PrintError out) ;;;
   pd <- lift r ;;
   let '(points, descriptions) := pd in
   call (PrintRecords (lit "Parsed points: ") points) ;;;
   call (PrintDescriptions descriptions) ;;;
   match points with
   | [] => call Display
   | _ :: _ =>
       for_enumerate 0 points (point_mark img descriptions) ;;;
       call Display
   end) [].

(** Lines 128-147, one turn of the loop of [plot_bboxes]. *)
Definition bbox_mark (img : image) (descriptions : list str)
    (i : nat) (bbox : list float) : prog unit :=
  k <- modulo i (length colors) ;;
  color <- index colors k ;;
  box <- unpack4 bbox ;;
  let '(x_min, y_min, x_max, y_max) := box in
  abs_x_min <- mul x_min (width img) ;;
  abs_y_min <- mul y_min (height img) ;;
  abs_x_max <- mul x_max (width img) ;;
  abs_y_max <- mul y_max (height img) ;;
  call (Rectangle abs_x_min abs_y_min abs_x_max abs_y_max color 2) ;;;
  let label_pos_x := abs_x_min in
  label_pos_y <- (if gt abs_y_min 15 then sub abs_y_min 15
                  else add abs_y_min 5) ;;
  d <- index descriptions i ;;
  call (DrawText label_pos_x label_pos_y d color).

(** [plot_bboxes(img_path, text)], from its first call on. *)
Definition plot_bboxes_in (img : image) (text : str) : io unit :=
  (let '(r, out) := Utils.decode_json_bboxes rt text in
   calls (map PrintError out) ;;;
   pd <- lift r ;;
   let '(bboxes, descriptions) := pd in
   call (PrintRecords (lit "Parsed bboxes: ") bboxes) ;;;
   call (PrintDescriptions descriptions) ;;;
   match bboxes with
   | [] => call Display
   | _ :: _ =>
       for_enumerate 0 bboxes (bbox_mark img descriptions) ;;;
       call Display
   end) [].

End Outside.

(** The two functions where every call to the outside returns. *)
Definition plot_points (rt : runtime) (additional_colors : list str)
    (img : image) (text : str) : io unit :=
  plot_points_in quiet rt additional_colors img text.

Definition plot_bboxes (rt : runtime) (additional_colors : list str)
    (img : image) (text : str) : io unit :=
  plot_bboxes_in quiet rt additional_colors img text.

End Plots.
Import Py Utils.

(** * What the claims talk about *)

(** ** What a text holds

    The conditions of the claims on a text, as plain recursive tests. *)

Module Patterns.
Import Re.

(** [s] begins with white space, if any, and then [closer]. *)
Fixpoint closes_after_spaces (closer : char) (s : str) : bool :=
  match s with
  | c :: s' =>
      char_eqb c closer || (isspace c && closes_after_spaces closer s')
  | [] => false
  end.

(** The text holds a comma followed, after white space if any, by
    [closer]. *)
Fixpoint has_trailing_comma (closer : char) (s : str) : bool :=
  match s with
  | c :: s' =>
      (char_eqb c (ord ",") && closes_after_spaces closer s')
      || has_trailing_comma closer s'
  | [] => false
  end.

(** The text holds a single quote. *)
Definition has_squote (s : str) : bool :=
  existsb (fun c => char_eqb c squote) s.

Definition fence_open : str := lit "```json".
Definition fence_close : str := lit "```".

(** The text begins with the opening fence with its [json] tag and holds
    a closing fence after it. *)
Definition fence_starts (s : str) : bool :=
  startswith fence_open s && occurs fence_close (skipn 7 s).

(** Such a block begins somewhere in the text. *)
Fixpoint has_fence (s : str) : bool :=
  fence_starts s
  ||
  match s with
  | [] => false
  | _ :: s' => has_fence s'
  end.


(** What is left of the fence pattern after the lazy group, which began
    at [s2] and ended at [s3]: white space, then the closing fence. *)
Definition fence_end (s2 s3 : str) : option rematch :=
  star_greedy isspace s3 (fun s4 =>
    rmatch (Lit fence_close) s4 (Some (firstn (length s2 - length s3) s2))
      (fun s' g =>
         Some {| group1 := match g with Some x => x | None => [] end;
                 after := s' |})).

End Patterns.

(** ** The extractors, element by element

    What the loops compute, written without state or exceptions: the
    record an element contributes, if any, and the label it gets. The
    lemmas below relate the loops of [src/utils.py] to it. *)

Module Spec.

Section WithRuntime.
Variable rt : runtime.

(** Every value converts with [float]. *)
Fixpoint floats_of (es : list pyval) : option (list float) :=
  match es with
  | [] => Some []
  | e :: es' =>
      match py_float rt e, floats_of es' with
      | Ok f, Some fs => Some (f :: fs)
      | _, _ => None
      end
  end.

(** The coordinates of an element: it is a mapping, it has [key], the
    value under [key] yields exactly [n] values, and each converts with
    [float]. *)
Definition record_of (key : str) (n : nat) (item : pyval)
    : option (list float) :=
  match item with
  | PDict d =>
      match dict_get key d with
      | Some v =>
          match py_iter v with
          | Ok es => if Nat.eqb (length es) n then floats_of es else None
          | Raise _ => None
          end
      | None => None
      end
  | _ => None
  end.

(** The label of the [k]-th accepted element. *)
Definition label_of (prefix : str) (k : nat) (item : pyval) : str :=
  match item with
  | PDict d =>
      match dict_get (lit "label") d with
      | Some l => py_str rt l
      | None => prefix ++ decimal_of_N (N.of_nat k)
      end
  | _ => prefix ++ decimal_of_N (N.of_nat k)
  end.

(** The records of a list of elements, [k] of them accepted before. *)
Fixpoint records (key : str) (n : nat) (prefix : str) (k : nat)
    (items : list pyval) : list (list float * str) :=
  match items with
  | [] => []
  | item :: rest =>
      match record_of key n item with
      | Some c =>
          (c, label_of prefix (S k) item) :: records key n prefix (S k) rest
      | None => records key n prefix k rest
      end
  end.

(** The element is accepted: it contributes a record. *)
Definition accepts (key : str) (n : nat) (item : pyval) : bool :=
  match record_of key n item with
  | Some _ => true
  | None => false
  end.

(** The coordinates of the accepted elements, in their order. *)
Fixpoint coords_of (key : str) (n : nat) (items : list pyval)
    : list (list float) :=
  match items with
  | [] => []
  | item :: rest =>
      match record_of key n item with
      | Some c => c :: coords_of key n rest
      | None => coords_of key n rest
      end
  end.

(** The labels of accepted elements, numbered from [k + 1] on. *)
Fixpoint number (prefix : str) (k : nat) (accepted : list pyval)
    : list str :=
  match accepted with
  | [] => []
  | item :: rest => label_of prefix (S k) item :: number prefix (S k) rest
  end.

(** One element's effect on the two lists. *)
Definition step (key : str) (n : nat) (prefix : str) (st : lists)
    (item : pyval) : lists :=
  match record_of key n item with
  | Some c =>
      {| coords := coords st ++ [c];
         labels := labels st ++ [label_of prefix (S (length (coords st))) item] |}
  | None => st
  end.

(** The elements the loop visits. *)
Definition elements (data : pyval) : list pyval :=
  match data with
  | PDict _ => [data]
  | PList l => l
  | PStr s => List.map (fun c => PStr [c]) s
  | _ => []
  end.

(** [float] does not overflow on this value. *)
Definition in_range (e : pyval) : bool :=
  match py_float rt e with
  | Raise OverflowError => false
  | _ => true
  end.

(** An element the loop body handles without raising: it supports [in],
    and no entry under [key] is an integer beyond the doubles. *)
Definition handled (key : str) (item : pyval) : bool :=
  match item with
  | PDict d =>
      match dict_get key d with
      | Some v =>
          match py_iter v with
          | Ok es => forallb in_range es
          | Raise _ => true
          end
      | None => true
      end
  | PList _ | PStr _ => true
  | PNone | PBool _ | PInt _ | PFloat _ => false
  end.

End WithRuntime.

End Spec.

(** ** Examples *)

(** A runtime to evaluate closed examples in: the limits CPython 3.11
    ships with, the Arabic-Indic and the fullwidth digits for its digit
    table, and a placeholder for the [repr] the examples never reach. *)
Definition cpython : runtime :=
  {| recursion_limit := 1000;
     int_max_str_digits := 4300;
     unicode_decimal := fun c =>
       if ((1632 <=? c) && (c <=? 1641))%N then Some (c - 1632)%N
       else if ((65296 <=? c) && (c <=? 65305))%N then Some (c - 65296)%N
       else None;
     repr := fun _ => lit "..." |}.

(** Doubles the examples meet, as sign, mantissa and binary exponent. *)
Definition zero : float := S754_zero false.
Definition one : float := S754_finite false 4503599627370496 (-52).
Definition two : float := S754_finite false 4503599627370496 (-51).
Definition half : float := S754_finite false 4503599627370496 (-53).
Definition tenth : float := S754_finite false 7205759403792794 (-56).
Definition fifth : float := S754_finite false 7205759403792794 (-55).
Definition three_tenths : float := S754_finite false 5404319552844595 (-54).

Definition newline : str := [10%N].

(** The claims as the specification words them, where the code does
    something else. *)
Module Stated.

(** A fenced block with an optional [json] tag. *)
Definition optional_tag_fence_re : Re.regex :=
  Re.Seq (Re.Lit (lit "```"))
    (Re.Seq (Re.Opt (Re.Lit (lit "json")))
      (Re.Seq (Re.Star true isspace)
        (Re.Seq (Re.Group (Re.Star false Re.any))
          (Re.Seq (Re.Star true isspace) (Re.Lit (lit "```")))))).

Definition numeric (v : pyval) : bool :=
  match v with
  | PInt _ | PFloat _ => true
  | _ => false
  end.

(** A mapping whose [key] holds an array of exactly [n] numeric values. *)
Definition well_formed (key : str) (n : nat) (item : pyval) : bool :=
  match item with
  | PDict d =>
      match dict_get key d with
      | Some (PList es) => Nat.eqb (length es) n && forallb numeric es
      | _ => false
      end
  | _ => false
  end.

End Stated.

(** ** What the further properties talk about *)

Module More.

(** How many single quotes the text holds. *)
Definition squotes (s : str) : nat :=
  length (filter (fun c => char_eqb c squote) s).

(** The text holds a backtick. *)
Definition has_backtick (s : str) : bool :=
  existsb (fun c => char_eqb c (ord "`")) s.

(** The two exceptions the extractors let through. *)
Definition escapes (e : exn) : Prop := e = TypeError \/ e = OverflowError.

(** The int is within the range of a double. *)
Definition converts (n : Z) : bool :=
  match float_of_int n with
  | Ok _ => true
  | Raise _ => false
  end.

(** What a run of a plotting function drew: the colour of each ellipse
    or rectangle, each text with its colour, and how often the image was
    displayed. *)
Definition shape_colors (t : list Plots.event) : list str :=
  flat_map (fun e =>
    match e with
    | Plots.Ellipse _ _ _ _ c | Plots.Rectangle _ _ _ _ c _ => [c]
    | _ => []
    end) t.

Definition labels_drawn (t : list Plots.event) : list (str * str) :=
  flat_map (fun e =>
    match e with
    | Plots.DrawText _ _ s c => [(s, c)]
    | _ => []
    end) t.

Definition displays (t : list Plots.event) : nat :=
  length (filter (fun e =>
    match e with
    | Plots.Display => true
    | _ => false
    end) t).

(** The colour of the record at position [i]. *)
Definition colour (additional_colors : list str) (i : nat) : str :=
  let colors := Plots.colors additional_colors in
  nth (i mod length colors) colors [].

(** A small int as the double it converts to. *)
Definition of_int (n : Z) : float := binary_normalize prec emax n 0 false.

(** The calls [plot_points] makes for the point at position [i] with
    the description [d], on an image of width [fw] and height [fh]: the
    ellipse around the scaled point, then the description beside it. *)
Definition point_call (additional_colors : list str) (fw fh : float)
    (i : nat) (point : list float) (d : str) : list Plots.event :=
  match point with
  | [x; y] =>
      let c := colour additional_colors i in
      let abs_x1 := SFmul prec emax x fw in
      let abs_y1 := SFmul prec emax y fh in
      [Plots.Ellipse (SFsub prec emax abs_x1 (of_int 2))
         (SFsub prec emax abs_y1 (of_int 2))
         (SFadd prec emax abs_x1 (of_int 2))
         (SFadd prec emax abs_y1 (of_int 2)) c;
       Plots.DrawText (SFsub prec emax abs_x1 (of_int 20))
         (SFadd prec emax abs_y1 (of_int 6)) d c]
  | _ => []
  end.

(** The calls [plot_bboxes] makes for the box at position [i]: the
    rectangle between the scaled corners, line width 2, then the
    description, 15 above the upper edge if that is more than 15 from
    the top of the image, else 5 below it. *)
Definition bbox_call (additional_colors : list str) (fw fh : float)
    (i : nat) (bbox : list float) (d : str) : list Plots.event :=
  match bbox with
  | [x_min; y_min; x_max; y_max] =>
      let c := colour additional_colors i in
      let abs_x_min := SFmul prec emax x_min fw in
      let abs_y_min := SFmul prec emax y_min fh in
      let abs_x_max := SFmul prec emax x_max fw in
      let abs_y_max := SFmul prec emax y_max fh in
      [Plots.Rectangle abs_x_min abs_y_min abs_x_max abs_y_max c 2;
       Plots.DrawText abs_x_min
         (if SFltb (of_int 15) abs_y_min
          then SFsub prec emax abs_y_min (of_int 15)
          else SFadd prec emax abs_y_min (of_int 5)) d c]
  | _ => []
  end.

(** The calls for the records from position [i] on, each with its
    description, in order. *)
Fixpoint record_calls (one : nat -> list float -> str -> list Plots.event)
    (i : nat) (records : list (list float)) (descriptions : list str)
    : list Plots.event :=
  match records, descriptions with
  | r :: records', d :: descriptions' =>
      one i r d ++ record_calls one (S i) records' descriptions'
  | _, _ => []
  end.

(** The calls [cs] made in order after the calls [h], then [k]: the run
    ends at the first call that raises. *)
Fixpoint after_calls {A} (world : Plots.outside) (cs : list Plots.event)
    (k : Plots.prog A) (h : list Plots.event) : Plots.io A :=
  match cs with
  | [] => k h
  | e :: rest =>
      if world h e then after_calls world rest k (h ++ [e])
      else (h ++ [e], Plots.Failed (Plots.Outside e))
  end.

(** A run that makes the calls [cs] and, if they all return, ends as
    [final]. *)
Definition play (world : Plots.outside) (cs : list Plots.event)
    (final : Plots.outcome unit) : Plots.io unit :=
  after_calls world cs (fun h => (h, final)) [].

(** What [plot_points] and [plot_bboxes] share: the prints, the early
    return and the loop, around what the extractor gave and what a turn
    of the loop does. *)
Definition plot_with (world : Plots.outside)
    (decoded : result (list (list float) * list str) * list exn)
    (title : str) (mark : list str -> nat -> list float -> Plots.prog unit)
    : Plots.io unit :=
  (let '(r, out) := decoded in
   Plots.seq (Plots.calls world (map Plots.PrintError out)) (fun _ =>
   Plots.seq (Plots.lift r) (fun pd =>
   let '(records, descriptions) := pd in
   Plots.seq (Plots.call world (Plots.PrintRecords title records)) (fun _ =>
   Plots.seq (Plots.call world (Plots.PrintDescriptions descriptions))
     (fun _ =>
   match records with
   | [] => Plots.call world Plots.Display
   | _ :: _ =>
       Plots.seq (Plots.for_enumerate 0 records (mark descriptions))
         (fun _ => Plots.call world Plots.Display)
   end))))) [].

End More.

(** * Lemmas *)

(** ** Text *)

Module TextFacts.

Lemma char_eqb_eq a b : char_eqb a b = true <-> a = b.
Proof. apply N.eqb_eq. Qed.

Lemma char_eqb_refl a : char_eqb a a = true.
Proof. apply N.eqb_refl. Qed.

Lemma str_eqb_eq a : forall b, str_eqb a b = true <-> a = b.
Proof.
  induction a as [|x a IH]; intros [|y b]; simpl; split; intro H;
    try reflexivity; try discriminate.
  - apply andb_true_iff in H as [H1 H2].
    apply char_eqb_eq in H1. apply IH in H2. congruence.
  - injection H as -> ->. rewrite char_eqb_refl. simpl. now apply IH.
Qed.

Lemma startswith_app p s : startswith p (p ++ s) = true.
Proof.
  induction p as [|x p IH]; simpl; [reflexivity|].
  now rewrite char_eqb_refl.
Qed.

Lemma startswith_split p : forall s,
  startswith p s = true -> exists r, s = p ++ r.
Proof.
  induction p as [|x p IH]; intros s H.
  - now exists s.
  - destruct s as [|y s]; [discriminate|]. simpl in H.
    apply andb_true_iff in H as [H1 H2].
    apply char_eqb_eq in H1. subst y.
    destruct (IH _ H2) as [r ->]. now exists r.
Qed.

End TextFacts.
Import TextFacts.

(** ** Matching *)

Module ReFacts.
Import Re.

Lemma rmatch_Lit A p : forall s g (k : str -> option str -> option A),
  rmatch (Lit p) s g k =
  if startswith p s then k (skipn (length p) s) g else None.
Proof.
  induction p as [|c p IH]; intros s g k; simpl; [reflexivity|].
  destruct s as [|x s]; [reflexivity|].
  unfold char_eqb. rewrite (N.eqb_sym x c).
  destruct (N.eqb c x); simpl; [apply IH | reflexivity].
Qed.

Lemma star_greedy_none A cls s (k : str -> option A) :
  star_greedy cls s k = None -> k s = None.
Proof.
  destruct s as [|c s]; simpl; [auto|].
  destruct (cls c); [|auto].
  destruct (star_greedy cls s k); [discriminate | auto].
Qed.

Lemma star_greedy_sound A cls : forall s (k : str -> option A) a,
  star_greedy cls s k = Some a ->
  exists w s', s = w ++ s' /\ forallb cls w = true /\ k s' = Some a.
Proof.
  induction s as [|c s IH]; intros k a H; simpl in H.
  - exists [], []. auto.
  - destruct (cls c) eqn:Hc.
    + destruct (star_greedy cls s k) eqn:Hs.
      * injection H as ->.
        destruct (IH _ _ Hs) as (w & s' & -> & Hw & Hk).
        exists (c :: w), s'. simpl. rewrite Hc, Hw. auto.
      * exists [], (c :: s). auto.
    + exists [], (c :: s). auto.
Qed.

(** A greedy star in front of a character outside its class takes the
    whole run. *)
Lemma star_greedy_run A cls (k : str -> option A) c rest a : forall w,
  forallb cls w = true -> cls c = false -> k (c :: rest) = Some a ->
  star_greedy cls (w ++ c :: rest) k = Some a.
Proof.
  induction w as [|x w IH]; intros Hw Hc Hk; simpl.
  - now rewrite Hc.
  - simpl in Hw. apply andb_true_iff in Hw as [Hx Hw].
    now rewrite Hx, IH.
Qed.

Lemma star_lazy_sound A cls : forall s (k : str -> option A) a,
  star_lazy cls s k = Some a ->
  exists w s', s = w ++ s' /\ forallb cls w = true /\ k s' = Some a /\
    forall w1 w2, w = w1 ++ w2 -> w2 <> [] -> k (w2 ++ s') = None.
Proof.
  induction s as [|c s IH]; intros k a H; simpl in H.
  - destruct (k []) eqn:Hk; [|discriminate]. injection H as ->.
    exists [], []. repeat split; auto.
    intros w1 w2 Hw Hn. destruct w1, w2; try discriminate. now elim Hn.
  - destruct (k (c :: s)) eqn:Hk.
    + injection H as ->. exists [], (c :: s). repeat split; auto.
      intros w1 w2 Hw Hn. destruct w1, w2; try discriminate. now elim Hn.
    + destruct (cls c) eqn:Hc; [|discriminate].
      destruct (IH _ _ H) as (w & s' & -> & Hw & Hk' & Hmin).
      exists (c :: w), s'. simpl. rewrite Hc, Hw. repeat split; auto.
      intros w1 w2 Heq Hn. destruct w1 as [|x w1]; simpl in Heq.
      * subst w2. exact Hk.
      * injection Heq as _ Heq. now apply (Hmin w1).
Qed.

Lemma star_lazy_any A (k : str -> option A) s' : forall w,
  k s' <> None -> star_lazy any (w ++ s') k <> None.
Proof.
  induction w as [|x w IH]; intros Hk; simpl.
  - destruct s'; simpl; destruct (k _); congruence.
  - destruct (k (x :: w ++ s')); [discriminate|]. now apply IH.
Qed.

(** [search] finds the leftmost position that has a match. *)
Lemma search_sound r : forall s m,
  search r s = Some m ->
  exists pre rest, s = pre ++ rest /\ match_here r rest = Some m /\
    forall p1 p2, pre = p1 ++ p2 -> p2 <> [] ->
      match_here r (p2 ++ rest) = None.
Proof.
  induction s as [|c s IH]; intros m H; simpl in H.
  - destruct (match_here r []) eqn:Hm; [|discriminate]. injection H as ->.
    exists [], []. repeat split; auto.
    intros p1 p2 Hp Hn. destruct p1, p2; try discriminate. now elim Hn.
  - destruct (match_here r (c :: s)) eqn:Hm.
    + injection H as ->. exists [], (c :: s). repeat split; auto.
      intros p1 p2 Hp Hn. destruct p1, p2; try discriminate. now elim Hn.
    + destruct (IH _ H) as (pre & rest & -> & Hr & Hleft).
      exists (c :: pre), rest. repeat split; auto.
      intros p1 p2 Hp Hn. destruct p1 as [|x p1]; simpl in Hp.
      * subst p2. exact Hm.
      * injection Hp as _ Hp. now apply (Hleft p1).
Qed.

Lemma search_complete r rest : forall pre,
  match_here r rest <> None -> search r (pre ++ rest) <> None.
Proof.
  induction pre as [|c pre IH]; intros H; simpl.
  - destruct rest; simpl; destruct (match_here r _); congruence.
  - destruct (match_here r (c :: pre ++ rest)); [discriminate|].
    now apply IH.
Qed.

Lemma search_none r : forall pre rest,
  search r (pre ++ rest) = None -> match_here r rest = None.
Proof.
  intros pre rest H. destruct (match_here r rest) eqn:Hm; [|reflexivity].
  exfalso. apply (search_complete r rest pre); congruence.
Qed.

(** Where nothing matches, [sub] copies. *)
Lemma sub_fuel_none r repl : forall s fuel,
  search r s = None -> sub_fuel fuel r repl s = s.
Proof.
  induction s as [|c s IH]; intros [|fuel] H; simpl in *; try reflexivity.
  - destruct (match_here r []); [discriminate | reflexivity].
  - destruct (match_here r (c :: s)); [discriminate|].
    now rewrite IH.
Qed.

Lemma sub_none r repl s : search r s = None -> sub r repl s = s.
Proof. apply sub_fuel_none. Qed.

(** The fuel of [sub] is enough: any amount above the length of the text
    gives the same result. *)
Lemma sub_fuel_enough r repl : forall n s f1 f2,
  length s < n -> length s < f1 -> length s < f2 ->
  sub_fuel f1 r repl s = sub_fuel f2 r repl s.
Proof.
  induction n as [|n IH]; intros s f1 f2 Hn H1 H2; [lia|].
  destruct f1 as [|f1]; [lia|]. destruct f2 as [|f2]; [lia|].
  simpl. destruct (match_here r s) as [m|].
  - destruct (length (after m) <? length s) eqn:Hlt.
    + apply Nat.ltb_lt in Hlt. f_equal. apply IH; lia.
    + destruct s as [|c s]; [reflexivity|]. simpl in *.
      do 2 f_equal. apply IH; lia.
  - destruct s as [|c s]; [reflexivity|]. simpl in *.
    f_equal. apply IH; lia.
Qed.

Lemma sub_match r repl s m :
  match_here r s = Some m -> length (after m) < length s ->
  sub r repl s = repl (group1 m) ++ sub r repl (after m).
Proof.
  intros Hm Hlt. unfold sub.
  change (sub_fuel (S (length s)) r repl s) with
    (match match_here r s with
     | Some m =>
         if length (after m) <? length s
         then repl (group1 m) ++ sub_fuel (length s) r repl (after m)
         else
           match s with
           | [] => repl (group1 m)
           | c :: s' => repl (group1 m) ++ c :: sub_fuel (length s) r repl s'
           end
     | None =>
         match s with
         | [] => []
         | c :: s' => c :: sub_fuel (length s) r repl s'
         end
     end).
  rewrite Hm. apply Nat.ltb_lt in Hlt as Hb. rewrite Hb. f_equal.
  apply (sub_fuel_enough r repl (S (length s))); lia.
Qed.

Lemma sub_skip r repl c s :
  match_here r (c :: s) = None ->
  sub r repl (c :: s) = c :: sub r repl s.
Proof.
  intros Hm. unfold sub.
  change (sub_fuel (S (length (c :: s))) r repl (c :: s)) with
    (match match_here r (c :: s) with
     | Some m =>
         if length (after m) <? length (c :: s)
         then repl (group1 m) ++ sub_fuel (length (c :: s)) r repl (after m)
         else repl (group1 m) ++ c :: sub_fuel (length (c :: s)) r repl s
     | None => c :: sub_fuel (length (c :: s)) r repl s
     end).
  rewrite Hm. reflexivity.
Qed.

End ReFacts.

(** ** What the three patterns match *)

Module PatternFacts.
Import Re ReFacts Patterns.

(** *** Quotes *)

Lemma quote_here_other s :
  match s with c :: _ => char_eqb c squote = false | [] => True end ->
  match_here quote_re s = None.
Proof.
  destruct s as [|c s]; [reflexivity|]. intros H.
  unfold match_here, quote_re. cbn [rmatch]. now rewrite H.
Qed.

Lemma quote_search_none : forall s,
  has_squote s = false -> search quote_re s = None.
Proof.
  induction s as [|c s IH]; intros H; simpl in H.
  - reflexivity.
  - apply orb_false_iff in H as [Hc Hs].
    simpl. rewrite quote_here_other by exact Hc. now apply IH.
Qed.

Lemma not_squote_all body :
  has_squote body = false -> forallb not_squote body = true.
Proof.
  induction body as [|c b IH]; simpl; [reflexivity|]. intros H.
  apply orb_false_iff in H as [Hc Hb]. unfold not_squote at 1.
  rewrite Hc. simpl. now apply IH.
Qed.

Lemma firstn_consumed (w s' : str) :
  firstn (length (w ++ s') - length s') (w ++ s') = w.
Proof.
  rewrite length_app, Nat.add_sub.
  rewrite firstn_app, Nat.sub_diag, firstn_all. simpl.
  apply app_nil_r.
Qed.

(** A quote, a body free of quotes, a quote: the body is group 1. *)
Lemma quote_here body rest :
  has_squote body = false ->
  match_here quote_re (squote :: body ++ squote :: rest) =
  Some {| group1 := body; after := rest |}.
Proof.
  intros Hb. unfold match_here, quote_re.
  cbn [rmatch]. rewrite char_eqb_refl.
  apply star_greedy_run.
  - now apply not_squote_all.
  - unfold not_squote. now rewrite char_eqb_refl.
  - rewrite char_eqb_refl.
    now rewrite (firstn_consumed body (squote :: rest)).
Qed.

(** The equation of the quote repair: up to the first quote the text is
    copied; a quoted run without quotes inside gets double quotes, and
    the repair goes on after it. *)
Lemma quote_repair_eq pre body rest :
  has_squote pre = false -> has_squote body = false ->
  sub quote_re quote_repl (pre ++ squote :: body ++ squote :: rest) =
  pre ++ dquote :: body ++ dquote :: sub quote_re quote_repl rest.
Proof.
  intros Hpre Hbody. induction pre as [|c pre IH]; simpl.
  - rewrite (sub_match quote_re quote_repl _ _ (quote_here body rest Hbody)).
    + unfold quote_repl. simpl. now rewrite <- app_assoc.
    + simpl. rewrite length_app. simpl. lia.
  - simpl in Hpre. apply orb_false_iff in Hpre as [Hc Hpre].
    rewrite sub_skip by (apply quote_here_other; exact Hc).
    now rewrite IH.
Qed.

(** *** Trailing commas *)


Lemma comma_here_sound closer s m :
  match_here (comma_re closer) s = Some m ->
  exists ws, s = ord "," :: ws ++ closer :: after m
             /\ forallb isspace ws = true.
Proof.
  unfold match_here, comma_re. cbn [rmatch].
  destruct s as [|c s]; [discriminate|].
  destruct (char_eqb c (ord ",")) eqn:Hc; [|discriminate].
  apply char_eqb_eq in Hc. subst c. intros H.
  apply star_greedy_sound in H as (ws & s' & -> & Hws & Hk).
  destruct s' as [|x s']; [discriminate|].
  destruct (char_eqb x closer) eqn:Hx; [|discriminate].
  apply char_eqb_eq in Hx. subst x. injection Hk as <-.
  now exists ws.
Qed.

Lemma closes_after_spaces_app closer rest : forall ws,
  forallb isspace ws = true ->
  closes_after_spaces closer (ws ++ closer :: rest) = true.
Proof.
  induction ws as [|c ws IH]; simpl; intros H.
  - now rewrite char_eqb_refl.
  - apply andb_true_iff in H as [Hc Hws].
    rewrite Hc, IH by assumption. apply orb_true_r.
Qed.

Lemma comma_search_none closer : forall s,
  has_trailing_comma closer s = false ->
  search (comma_re closer) s = None.
Proof.
  induction s as [|c s IH]; intros H.
  - reflexivity.
  - simpl in H. apply orb_false_iff in H as [Hc Hs].
    simpl. destruct (match_here (comma_re closer) (c :: s)) eqn:Hm.
    + apply comma_here_sound in Hm as (ws & Heq & Hws).
      injection Heq as -> ->.
      rewrite char_eqb_refl, closes_after_spaces_app in Hc by assumption.
      discriminate.
    + now apply IH.
Qed.



(** *** The fence *)

Lemma occurs_eq sub s :
  occurs sub s =
  startswith sub s || match s with [] => false | _ :: s' => occurs sub s' end.
Proof. destruct s; reflexivity. Qed.

Lemma occurs_app sub b : forall a, occurs sub (a ++ sub ++ b) = true.
Proof.
  induction a as [|c a IH]; rewrite occurs_eq.
  - cbn [app]. now rewrite startswith_app.
  - cbn [app]. rewrite IH. apply orb_true_r.
Qed.

Lemma occurs_split sub : forall s,
  occurs sub s = true -> exists a b, s = a ++ sub ++ b.
Proof.
  induction s as [|c s IH]; simpl; intros H.
  - rewrite orb_false_r in H. apply startswith_split in H as [r ->].
    now exists [], r.
  - apply orb_true_iff in H as [H|H].
    + apply startswith_split in H as [r ->]. now exists [], r.
    + destruct (IH H) as (a & b & ->). now exists (c :: a), b.
Qed.

Lemma fence_here_eq s :
  match_here fence_re s =
  if startswith fence_open s
  then star_greedy isspace (skipn 7 s)
         (fun s2 => star_lazy any s2 (fence_end s2))
  else None.
Proof.
  unfold match_here, fence_re. cbn [rmatch].
  rewrite rmatch_Lit. reflexivity.
Qed.

Lemma fence_end_sound s2 s3 m :
  fence_end s2 s3 = Some m ->
  exists ws2, s3 = ws2 ++ fence_close ++ after m
    /\ forallb isspace ws2 = true
    /\ group1 m = firstn (length s2 - length s3) s2.
Proof.
  unfold fence_end. intros H.
  apply star_greedy_sound in H as (ws2 & s4 & -> & Hws & Hk).
  rewrite rmatch_Lit in Hk.
  destruct (startswith fence_close s4) eqn:Hs; [|discriminate].
  apply startswith_split in Hs as [r ->]. injection Hk as <-.
  exists ws2. repeat split; auto.
Qed.

Lemma fence_end_close s2 post :
  fence_end s2 (fence_close ++ post) <> None.
Proof.
  unfold fence_end. intros H. apply star_greedy_none in H.
  rewrite rmatch_Lit, startswith_app in H. discriminate.
Qed.

Lemma fence_end_none s2 s3 :
  fence_end s2 s3 = None -> startswith fence_close s3 = false.
Proof.
  unfold fence_end. intros H. apply star_greedy_none in H.
  rewrite rmatch_Lit in H.
  destruct (startswith fence_close s3); [discriminate | reflexivity].
Qed.

(** A match of the fence pattern, taken apart. *)
Lemma fence_here_sound s m :
  match_here fence_re s = Some m ->
  exists ws1 body ws2,
    s = fence_open ++ ws1 ++ body ++ ws2 ++ fence_close ++ after m
    /\ forallb isspace ws1 = true /\ forallb isspace ws2 = true
    /\ group1 m = body
    /\ forall b1 b2, body = b1 ++ b2 -> b2 <> [] ->
         startswith fence_close (b2 ++ ws2 ++ fence_close ++ after m)
         = false.
Proof.
  rewrite fence_here_eq.
  destruct (startswith fence_open s) eqn:Ho; [|discriminate].
  apply startswith_split in Ho as [s1 ->].
  change (skipn 7 (fence_open ++ s1)) with s1. intros H.
  apply star_greedy_sound in H as (ws1 & s2 & -> & Hws1 & H).
  apply star_lazy_sound in H as (body & s3 & -> & _ & H & Hmin).
  apply fence_end_sound in H as (ws2 & -> & Hws2 & Hg).
  exists ws1, body, ws2. repeat split; auto.
  - rewrite Hg. apply firstn_consumed.
  - intros b1 b2 Hb Hn. apply (fence_end_none (body ++ ws2 ++ fence_close ++ after m)).
    now apply (Hmin b1).
Qed.

(** An opening fence with a closing fence after it is matched. *)
Lemma fence_here_complete mid post :
  match_here fence_re (fence_open ++ mid ++ fence_close ++ post) <> None.
Proof.
  rewrite fence_here_eq, startswith_app.
  change (skipn 7 (fence_open ++ mid ++ fence_close ++ post))
    with (mid ++ fence_close ++ post).
  intros H. apply star_greedy_none in H. revert H.
  apply star_lazy_any. apply fence_end_close.
Qed.

Lemma fence_starts_here s :
  fence_starts s = true <-> match_here fence_re s <> None.
Proof.
  unfold fence_starts. split.
  - intros H. apply andb_true_iff in H as [Ho Hc].
    apply startswith_split in Ho as [s1 ->].
    change (skipn 7 (fence_open ++ s1)) with s1 in Hc.
    apply occurs_split in Hc as (mid & post & ->).
    apply fence_here_complete.
  - intros H. destruct (match_here fence_re s) as [m|] eqn:Hm; [|easy].
    apply fence_here_sound in Hm as (ws1 & body & ws2 & -> & _).
    rewrite startswith_app.
    change (skipn 7 (fence_open ++ ?x)) with x.
    cbn [andb].
    replace (ws1 ++ body ++ ws2 ++ fence_close ++ after m)
      with ((ws1 ++ body ++ ws2) ++ fence_close ++ after m)
      by now rewrite <- !app_assoc.
    apply occurs_app.
Qed.

Lemma fence_starts_none s :
  fence_starts s = false <-> match_here fence_re s = None.
Proof.
  split; intros H.
  - destruct (match_here fence_re s) eqn:Hm; [|reflexivity].
    assert (fence_starts s = true) by (apply fence_starts_here; congruence).
    congruence.
  - destruct (fence_starts s) eqn:Hf; [|reflexivity].
    apply fence_starts_here in Hf. contradiction.
Qed.

Lemma has_fence_eq s :
  has_fence s =
  fence_starts s || match s with [] => false | _ :: s' => has_fence s' end.
Proof. destruct s; reflexivity. Qed.

Lemma fence_search_none : forall s,
  has_fence s = false -> search fence_re s = None.
Proof.
  induction s as [|c s IH]; intros H; rewrite has_fence_eq in H;
    apply orb_false_iff in H as [Hh Ht];
    apply fence_starts_none in Hh; cbn [search]; rewrite Hh.
  - reflexivity.
  - now apply IH.
Qed.

Lemma fence_search_some : forall s,
  has_fence s = true -> search fence_re s <> None.
Proof.
  induction s as [|c s IH]; intros H; rewrite has_fence_eq in H;
    apply orb_true_iff in H as [H|H]; cbn [search].
  - apply fence_starts_here in H.
    destruct (match_here fence_re []); congruence.
  - discriminate.
  - apply fence_starts_here in H.
    destruct (match_here fence_re (c :: s)); congruence.
  - destruct (match_here fence_re (c :: s)); [discriminate|]. now apply IH.
Qed.

End PatternFacts.

(** ** The loops against the records *)

Module Loops.
Import Spec.

Section WithRuntime.
Variable rt : runtime.

Lemma py_len_iter v :
  py_len v =
  match py_iter v with
  | Ok es => Ok (length es)
  | Raise e => Raise e
  end.
Proof. destruct v; simpl; try reflexivity; now rewrite length_map. Qed.

Lemma py_iter_raise v e : py_iter v = Raise e -> e = TypeError.
Proof. destruct v; simpl; congruence. Qed.

Lemma float_of_int_raise n e :
  float_of_int n = Raise e -> e = OverflowError.
Proof.
  unfold float_of_int.
  destruct (binary_normalize prec emax n 0 false); congruence.
Qed.

Lemma float_of_str_raise s e :
  float_of_str rt s = Raise e -> e = ValueError.
Proof.
  unfold float_of_str.
  destruct (strip_underscores _ _) as [t|]; [|congruence].
  destruct (float_of_numeral _); congruence.
Qed.

Lemma py_float_raise x e :
  py_float rt x = Raise e ->
  e = TypeError \/ e = ValueError \/ e = OverflowError.
Proof.
  destruct x; simpl; intros H;
    try (injection H as <-; now auto); try discriminate.
  - apply float_of_int_raise in H. auto.
  - apply float_of_int_raise in H. auto.
  - apply float_of_str_raise in H. auto.
Qed.

Lemma py_float_in_range x e :
  in_range rt x = true -> py_float rt x = Raise e ->
  existsb (exn_isinstance e) [TypeError; ValueError] = true.
Proof.
  unfold in_range. intros Hr H. rewrite H in Hr.
  destruct (py_float_raise _ _ H) as [-> | [-> | ->]];
    try reflexivity; discriminate.
Qed.

Lemma unpack_floats_ok : forall n es fs,
  unpack_floats rt n es = Ok fs ->
  length es = n /\ floats_of rt es = Some fs.
Proof.
  induction n as [|n IH]; intros [|e es] fs H; simpl in H.
  - injection H as <-. auto.
  - destruct (py_float rt e); discriminate.
  - discriminate.
  - simpl. destruct (py_float rt e) as [f|]; [|discriminate]. simpl in H.
    destruct (unpack_floats rt n es) as [fs'|] eqn:Hu; [|discriminate].
    injection H as <-. destruct (IH _ _ Hu) as [-> ->]. auto.
Qed.

Lemma unpack_floats_caught : forall n es e,
  length es = n -> unpack_floats rt n es = Raise e ->
  floats_of rt es = None.
Proof.
  induction n as [|n IH]; intros [|x es] e Hl H; simpl in *;
    try discriminate.
  destruct (py_float rt x) as [f|]; [|reflexivity]. simpl in H.
  destruct (unpack_floats rt n es) as [fs'|] eqn:Hu; [discriminate|].
  injection Hl as Hl. now rewrite (IH _ _ Hl Hu).
Qed.

Lemma unpack_floats_raise : forall n es e,
  unpack_floats rt n es = Raise e ->
  e = TypeError \/ e = ValueError \/ e = OverflowError.
Proof.
  induction n as [|n IH]; intros [|x es] e H; simpl in H;
    try discriminate; try (injection H as <-; now auto).
  - destruct (py_float rt x) eqn:Hx; simpl in H.
    + injection H as <-. auto.
    + injection H as <-. eapply py_float_raise; eauto.
  - destruct (py_float rt x) eqn:Hx; simpl in H.
    + destruct (unpack_floats rt n es) eqn:Hu; [discriminate|].
      injection H as <-. eapply IH; eauto.
    + injection H as <-. eapply py_float_raise; eauto.
Qed.

Lemma unpack_floats_in_range : forall n es e,
  forallb (in_range rt) es = true -> unpack_floats rt n es = Raise e ->
  existsb (exn_isinstance e) [TypeError; ValueError] = true.
Proof.
  induction n as [|n IH]; intros [|x es] e Hr H; simpl in H;
    try discriminate; try (injection H as <-; reflexivity);
    simpl in Hr; apply andb_true_iff in Hr as [Hx Hr].
  - destruct (py_float rt x) eqn:Hf; simpl in H.
    + injection H as <-. reflexivity.
    + injection H as <-. eapply py_float_in_range; eauto.
  - destruct (py_float rt x) eqn:Hf; simpl in H.
    + destruct (unpack_floats rt n es) eqn:Hu; [discriminate|].
      injection H as <-. eapply IH; eauto.
    + injection H as <-. eapply py_float_in_range; eauto.
Qed.

Ltac caught e :=
  destruct e; cbn [existsb exn_isinstance exn_eqb orb ret] in *.

(** One turn of the point loop that ends normally did what [step] says. *)
Lemma point_item_ok item st st' :
  point_item rt item st = (Ok tt, st') ->
  st' = step rt (lit "point_2d") 2 (lit "point_") st item.
Proof.
  unfold point_item, step, record_of, seq, eval.
  remember (lit "point_2d") as key. remember (lit "point_") as prefix.
  destruct item as [| b | n | f | s | l | d]; cbn [py_contains];
    try discriminate.
  - destruct (occurs key s); unfold try_except, point_body, seq, eval;
      cbn; intros H; now injection H.
  - destruct (existsb (str_equals key) l);
      unfold try_except, point_body, seq, eval; cbn; intros H;
      now injection H.
  - destruct (dict_get key d) as [v|] eqn:Hv;
      [|intros H; now injection H].
    unfold try_except, point_body, seq, eval, py_unpack2.
    cbn [py_getitem]. rewrite <- Heqkey, Hv. cbn [bind].
    destruct (py_iter v) as [es|e]; cbn [bind].
    2:{ caught e; intros H; now injection H. }
    destruct es as [|a [|b [|c es]]]; cbn [length Nat.eqb floats_of];
      try (intros H; now injection H).
    cbn [fst snd].
    destruct (py_float rt a) as [x|e].
    2:{ caught e; intros H; now injection H. }
    destruct (py_float rt b) as [y|e].
    2:{ caught e; intros H; now injection H. }
    unfold append_coords, len_coords, append_label, label_of.
    cbn [py_get coords labels].
    rewrite length_app. cbn [length]. rewrite Nat.add_1_r. subst prefix.
    destruct (dict_get (lit "label") d); cbn [py_str]; intros H;
      now injection H.
Qed.

(** One turn of the box loop that ends normally did what [step] says. *)
Lemma bbox_item_ok item st st' :
  bbox_item rt item st = (Ok tt, st') ->
  st' = step rt (lit "bbox_2d") 4 (lit "bbox_") st item.
Proof.
  unfold bbox_item, step, record_of, seq, eval.
  remember (lit "bbox_2d") as key. remember (lit "bbox_") as prefix.
  destruct item as [| b | n | f | s | l | d]; cbn [py_contains];
    try discriminate.
  - destruct (occurs key s); unfold try_except, bbox_body, seq, eval;
      cbn; intros H; now injection H.
  - destruct (existsb (str_equals key) l);
      unfold try_except, bbox_body, seq, eval; cbn; intros H;
      now injection H.
  - destruct (dict_get key d) as [v|] eqn:Hv;
      [|intros H; now injection H].
    unfold try_except, bbox_body, seq, eval.
    cbn [py_getitem]. rewrite <- Heqkey, Hv. rewrite py_len_iter.
    destruct (py_iter v) as [es|e].
    2:{ caught e; intros H; now injection H. }
    destruct (Nat.eqb (length es) 4) eqn:Hn; cbn [negb].
    2:{ intros H; now injection H. }
    apply Nat.eqb_eq in Hn.
    destruct (unpack_floats rt 4 es) as [box|e] eqn:Hu.
    2:{ rewrite (unpack_floats_caught _ _ _ Hn Hu).
        caught e; intros H; now injection H. }
    destruct (unpack_floats_ok _ _ _ Hu) as [_ ->].
    unfold append_coords, len_coords, append_label, label_of.
    cbn [py_get coords labels].
    rewrite length_app. cbn [length]. rewrite Nat.add_1_r. subst prefix.
    destruct (dict_get (lit "label") d); cbn [py_str]; intros H;
      now injection H.
Qed.

(** A handled element ends its turn normally. *)
Lemma point_item_handled item st :
  handled rt (lit "point_2d") item = true ->
  fst (point_item rt item st) = Ok tt.
Proof.
  unfold point_item, handled, seq, eval.
  remember (lit "point_2d") as key.
  destruct item as [| b | n | f | s | l | d]; cbn [py_contains];
    try discriminate; intros Hh.
  - destruct (occurs key s); unfold try_except, point_body, seq, eval;
      reflexivity.
  - destruct (existsb (str_equals key) l);
      unfold try_except, point_body, seq, eval; reflexivity.
  - destruct (dict_get key d) as [v|] eqn:Hv; [|reflexivity].
    unfold try_except, point_body, seq, eval, py_unpack2.
    cbn [py_getitem]. rewrite <- Heqkey, Hv. cbn [bind].
    destruct (py_iter v) as [es|e] eqn:Hi; cbn [bind].
    2:{ apply py_iter_raise in Hi. subst e. reflexivity. }
    destruct es as [|a [|b [|c es]]]; try reflexivity.
    cbn [fst snd]. cbn [forallb] in Hh.
    apply andb_true_iff in Hh as [Ha Hh].
    apply andb_true_iff in Hh as [Hb _].
    destruct (py_float rt a) as [x|e] eqn:Hx.
    2:{ now rewrite (py_float_in_range _ _ Ha Hx). }
    destruct (py_float rt b) as [y|e] eqn:Hy.
    2:{ now rewrite (py_float_in_range _ _ Hb Hy). }
    unfold append_coords, len_coords, append_label. cbn [py_get].
    destruct (dict_get (lit "label") d); reflexivity.
Qed.

Lemma bbox_item_handled item st :
  handled rt (lit "bbox_2d") item = true ->
  fst (bbox_item rt item st) = Ok tt.
Proof.
  unfold bbox_item, handled, seq, eval.
  remember (lit "bbox_2d") as key.
  destruct item as [| b | n | f | s | l | d]; cbn [py_contains];
    try discriminate; intros Hh.
  - destruct (occurs key s); unfold try_except, bbox_body, seq, eval;
      reflexivity.
  - destruct (existsb (str_equals key) l);
      unfold try_except, bbox_body, seq, eval; reflexivity.
  - destruct (dict_get key d) as [v|] eqn:Hv; [|reflexivity].
    unfold try_except, bbox_body, seq, eval.
    cbn [py_getitem]. rewrite <- Heqkey, Hv. rewrite py_len_iter.
    destruct (py_iter v) as [es|e] eqn:Hi.
    2:{ apply py_iter_raise in Hi. subst e. reflexivity. }
    destruct (Nat.eqb (length es) 4) eqn:Hn; cbn [negb]; [|reflexivity].
    destruct (unpack_floats rt 4 es) as [box|e] eqn:Hu.
    2:{ now rewrite (unpack_floats_in_range _ _ _ Hh Hu). }
    unfold append_coords, len_coords, append_label. cbn [py_get].
    destruct (dict_get (lit "label") d); reflexivity.
Qed.

End WithRuntime.

Section Records.
Variable rt : runtime.
Variables (key : str) (n : nat) (prefix : str).

Lemma records_coords : forall items k,
  List.map fst (records rt key n prefix k items) = coords_of rt key n items.
Proof.
  induction items as [|item rest IH]; intros k; simpl; [reflexivity|].
  destruct (record_of rt key n item); simpl; now rewrite IH.
Qed.

Lemma records_labels : forall items k,
  List.map snd (records rt key n prefix k items) =
  number rt prefix k (filter (accepts rt key n) items).
Proof.
  induction items as [|item rest IH]; intros k; simpl; [reflexivity|].
  unfold accepts at 1.
  destruct (record_of rt key n item); simpl; now rewrite IH.
Qed.

Lemma coords_of_length items :
  length (coords_of rt key n items) =
  length (filter (accepts rt key n) items).
Proof.
  induction items as [|item rest IH]; simpl; [reflexivity|].
  unfold accepts at 1.
  destruct (record_of rt key n item); simpl; now rewrite IH.
Qed.

Lemma number_nth : forall accepted k i item,
  nth_error accepted i = Some item ->
  nth_error (number rt prefix k accepted) i =
  Some (label_of rt prefix (k + i + 1) item).
Proof.
  induction accepted as [|a rest IH]; intros k [|i] item H; simpl in *;
    try discriminate.
  - injection H as ->. now rewrite Nat.add_0_r, Nat.add_1_r.
  - rewrite (IH (S k) i item H). do 2 f_equal. lia.
Qed.

Lemma fold_step : forall items st,
  let recs := records rt key n prefix (length (coords st)) items in
  coords (fold_left (step rt key n prefix) items st)
    = coords st ++ List.map fst recs
  /\ labels (fold_left (step rt key n prefix) items st)
    = labels st ++ List.map snd recs.
Proof.
  induction items as [|item rest IH]; intros st; simpl.
  - now rewrite !app_nil_r.
  - unfold step at 2 4. destruct (record_of rt key n item) as [c|].
    + destruct (IH {| coords := coords st ++ [c];
                      labels := labels st ++
                        [label_of rt prefix (S (length (coords st))) item] |})
        as [Hc Hl].
      cbn [coords labels] in Hc, Hl.
      rewrite length_app, Nat.add_1_r in Hc, Hl. cbn [length] in Hc, Hl.
      rewrite Hc, Hl. simpl. now rewrite <- !app_assoc.
    + apply IH.
Qed.

Variable body : pyval -> stmt unit.

Section Partial.
Hypothesis body_ok : forall item st st',
  body item st = (Ok tt, st') -> st' = step rt key n prefix st item.

Lemma for_each_ok : forall items st st',
  for_each items body st = (Ok tt, st') ->
  st' = fold_left (step rt key n prefix) items st.
Proof.
  induction items as [|item rest IH]; intros st st' H; simpl in H.
  - unfold ret in H. now injection H.
  - unfold seq in H. destruct (body item st) as [[[]|e] st1] eqn:Hb;
      [|discriminate].
    apply body_ok in Hb. subst st1. simpl. now apply IH.
Qed.

(** A run of the extractor that returns, returns the records of the
    elements of its payload. *)
Lemma extract_ok data pts lbls :
  extract body data = Ok (pts, lbls) ->
  let recs := records rt key n prefix 0 (elements data) in
  pts = List.map fst recs /\ lbls = List.map snd recs.
Proof.
  unfold extract. destruct (py_not data) eqn:Hnot.
  - intros H. injection H as <- <-.
    destruct data as [| b | z | f | s | l | d]; simpl in *;
      try (split; reflexivity); try discriminate.
    + destruct s; [split; reflexivity | discriminate].
    + destruct l; [split; reflexivity | discriminate].
    + destruct d; [|discriminate]. unfold record_of. simpl.
      split; reflexivity.
  - assert (Hit : py_iter (if is_dict data then PList [data] else data)
                  = match data with
                    | PNone | PBool _ | PInt _ | PFloat _ => Raise TypeError
                    | _ => Ok (elements data)
                    end)
      by (destruct data; reflexivity).
    rewrite Hit. clear Hit.
    assert (Hrun : forall items,
      match for_each items body {| coords := []; labels := [] |} with
      | (Ok _, st) => Ok (coords st, labels st)
      | (Raise e, _) => Raise e
      end = Ok (pts, lbls) ->
      pts = List.map fst (records rt key n prefix 0 items)
      /\ lbls = List.map snd (records rt key n prefix 0 items)).
    { intros items H.
      destruct (for_each items body _) as [[[]|e] st] eqn:Hf;
        [|discriminate].
      injection H as <- <-. apply for_each_ok in Hf. subst st.
      destruct (fold_step items {| coords := []; labels := [] |})
        as [Hc Hl].
      now rewrite Hc, Hl. }
    destruct data; cbn [bind]; try discriminate; intros H;
      apply (Hrun _ H).
Qed.

End Partial.

Section Total.
Hypothesis body_handled : forall item st,
  handled rt key item = true -> fst (body item st) = Ok tt.

Lemma for_each_handled : forall items st,
  forallb (handled rt key) items = true ->
  fst (for_each items body st) = Ok tt.
Proof.
  induction items as [|item rest IH]; intros st H; simpl in *.
  - reflexivity.
  - apply andb_true_iff in H as [Hi Hr]. unfold seq.
    specialize (body_handled item st Hi).
    destruct (body item st) as [[u|e] st1]; simpl in body_handled;
      [|discriminate].
    now apply IH.
Qed.

Lemma extract_handled items :
  forallb (handled rt key) items = true ->
  exists pts lbls, extract body (PList items) = Ok (pts, lbls).
Proof.
  intros H. unfold extract. destruct items as [|item rest].
  - now exists [], [].
  - cbn [py_not is_dict py_iter bind].
    pose proof (for_each_handled (item :: rest)
                  {| coords := []; labels := [] |} H) as Hf.
    destruct (for_each (item :: rest) body _) as [[u|e] st];
      simpl in Hf; [|discriminate].
    now exists (coords st), (labels st).
Qed.

End Total.

End Records.

End Loops.

(** ** The decoder consumes its input, so its loops have fuel enough *)

Module JsonFacts.
Import Json.

Lemma skip_ws_length : forall s, length (skip_ws s) <= length s.
Proof.
  induction s as [|c s IH]; simpl; [lia|].
  destruct (is_ws c); simpl; lia.
Qed.

Lemma span_length p : forall s a b,
  span p s = (a, b) -> length b <= length s.
Proof.
  induction s as [|c s IH]; intros a b H; simpl in H.
  - injection H as <- <-. simpl. lia.
  - destruct (p c).
    + destruct (span p s) as [a' b'] eqn:Hs. injection H as <- <-.
      specialize (IH _ _ eq_refl). simpl. lia.
    + injection H as <- <-. simpl. lia.
Qed.

Ltac split_match H :=
  repeat match type of H with
  | context [match ?x with _ => _ end] =>
      destruct x eqn:?; try discriminate H
  end.

Lemma scanstring_shorter : forall n s v r,
  length s <= n -> scanstring s = Ok (v, r) -> length r < length s.
Proof.
  induction n as [|n IH]; intros s v r Hn H;
    (destruct s as [|c t]; [discriminate H|]); simpl in Hn; [lia|].
  assert (IH' : forall t' cs rest, length t' <= n ->
            scanstring t' = Ok (cs, rest) -> length rest < length t')
    by (intros; eapply IH; eauto).
  clear IH. cbn [scanstring] in H. unfold push, bind in H.
  split_match H; injection H as <- <-; subst; cbn [length] in *;
    try lia;
    match goal with
    | E : scanstring ?t' = Ok (_, ?rest) |- _ =>
        apply IH' in E; cbn [length] in *; lia
    end.
Qed.

Lemma integer_group_shorter s i r :
  integer_group s = Some (i, r) -> length r < length s.
Proof.
  unfold integer_group.
  assert (Hdigits : forall sign s1,
    match s1 with
    | [] => None
    | c :: t =>
        if char_eqb c (ord "0") then Some (sign ++ [c], t)
        else if is_digit19 c
        then let '(ds, r) := span is_digit t in Some (sign ++ c :: ds, r)
        else None
    end = Some (i, r) -> length r < length s1).
  { intros sign [|c t]; [discriminate|].
    destruct (char_eqb c (ord "0")).
    - intros H. injection H as <- <-. simpl. lia.
    - destruct (is_digit19 c); [|discriminate].
      destruct (span is_digit t) as [ds r0] eqn:Hs.
      intros H. injection H as <- <-.
      apply span_length in Hs. simpl. lia. }
  destruct s as [|c t]; [discriminate|].
  destruct (char_eqb c (ord "-")); intros H.
  - apply (Hdigits [c] t) in H. simpl. lia.
  - apply (Hdigits [] (c :: t)) in H. exact H.
Qed.

Lemma frac_group_shorter s f r :
  frac_group s = (f, r) -> length r <= length s.
Proof.
  unfold frac_group.
  destruct s as [|dot [|d t]];
    try (intros H; injection H as <- <-; simpl; lia).
  destruct (char_eqb dot (ord ".") && is_digit d).
  - destruct (span is_digit t) as [ds r0] eqn:Hs.
    intros H. injection H as <- <-. apply span_length in Hs. simpl. lia.
  - intros H. injection H as <- <-. simpl. lia.
Qed.

Lemma exp_group_shorter s x r :
  exp_group s = (x, r) -> length r <= length s.
Proof.
  unfold exp_group.
  destruct s as [|e t]; [intros H; injection H as <- <-; simpl; lia|].
  destruct (char_eqb (lower e) (ord "e"));
    [|intros H; injection H as <- <-; simpl; lia].
  assert (Ht : forall sg t1, length t1 <= length t ->
    match span is_digit t1 with
    | ((_ :: _) as ds, r) => (e :: sg ++ ds, r)
    | _ => ([], e :: t)
    end = (x, r) -> length r <= length (e :: t)).
  { intros sg t1 Hl. destruct (span is_digit t1) as [[|d ds] r0] eqn:Hs;
      intros H; injection H as <- <-; [simpl; lia|].
    apply span_length in Hs. simpl. lia. }
  destruct t as [|c t']; [apply Ht; simpl; lia|].
  destruct (char_eqb c (ord "-") || char_eqb c (ord "+"));
    apply Ht; simpl; lia.
Qed.

Lemma match_number_shorter s i f e r :
  match_number s = Some (i, f, e, r) -> length r < length s.
Proof.
  unfold match_number.
  destruct (integer_group s) as [[i0 r1]|] eqn:Hi; [|discriminate].
  destruct (frac_group r1) as [f0 r2] eqn:Hf.
  destruct (exp_group r2) as [e0 r3] eqn:He.
  intros H. injection H as <- <- <- <-.
  apply integer_group_shorter in Hi. apply frac_group_shorter in Hf.
  apply exp_group_shorter in He. lia.
Qed.

Section Loops.
Variable scan : str -> result (pyval * str).
Hypothesis scan_shorter : forall s v r,
  scan s = Ok (v, r) -> length r < length s.

Lemma array_loop_shorter : forall fuel s vals v r,
  array_loop scan fuel s vals = Ok (v, r) -> length r < length s.
Proof.
  induction fuel as [|fuel IH]; intros s vals v r H; [discriminate H|].
  cbn [array_loop] in H. unfold bind in H.
  destruct (scan s) as [[value r0]|] eqn:Hs; [|discriminate H].
  apply scan_shorter in Hs. pose proof (skip_ws_length r0) as Hw.
  destruct (skip_ws r0) as [|c r1] eqn:Hr; [discriminate H|].
  simpl in Hw.
  destruct (char_eqb c rbracket).
  - injection H as <- <-. lia.
  - destruct (char_eqb c (ord ",")); [|discriminate H].
    apply IH in H. pose proof (skip_ws_length r1). lia.
Qed.

Lemma array_loop_fuel : forall n s vals f1 f2,
  length s < n -> length s < f1 -> length s < f2 ->
  array_loop scan f1 s vals = array_loop scan f2 s vals.
Proof.
  induction n as [|n IH]; intros s vals f1 f2 Hn H1 H2; [lia|].
  destruct f1 as [|f1]; [lia|]. destruct f2 as [|f2]; [lia|].
  cbn [array_loop]. unfold bind.
  destruct (scan s) as [[value r0]|] eqn:Hs; [|reflexivity].
  apply scan_shorter in Hs. pose proof (skip_ws_length r0) as Hw.
  destruct (skip_ws r0) as [|c r1]; [reflexivity|]. simpl in Hw.
  destruct (char_eqb c rbracket); [reflexivity|].
  destruct (char_eqb c (ord ",")); [|reflexivity].
  pose proof (skip_ws_length r1). apply IH; lia.
Qed.

Lemma JSONArray_shorter s v r :
  JSONArray scan s = Ok (v, r) -> length r <= length s.
Proof.
  unfold JSONArray. pose proof (skip_ws_length s) as Hw.
  destruct (skip_ws s) as [|c r1] eqn:Hr.
  - intros H. apply array_loop_shorter in H. simpl in H. lia.
  - simpl in Hw. destruct (char_eqb c rbracket).
    + intros H. injection H as <- <-. lia.
    + intros H. apply array_loop_shorter in H. simpl in H. lia.
Qed.

Lemma object_loop_shorter : forall fuel s pairs v r,
  object_loop scan fuel s pairs = Ok (v, r) -> length r < length s.
Proof.
  induction fuel as [|fuel IH]; intros s pairs v r H; [discriminate H|].
  cbn [object_loop] in H. unfold bind in H.
  destruct (scanstring s) as [[key r0]|] eqn:Hk; [|discriminate H].
  apply (scanstring_shorter (length s)) in Hk; [|lia].
  pose proof (skip_ws_length r0) as Hw0.
  destruct (skip_ws r0) as [|c r1]; [discriminate H|]. simpl in Hw0.
  destruct (char_eqb c (ord ":")); [|discriminate H].
  pose proof (skip_ws_length r1) as Hw1.
  destruct (scan (skip_ws r1)) as [[value r2]|] eqn:Hs; [|discriminate H].
  apply scan_shorter in Hs. pose proof (skip_ws_length r2) as Hw2.
  destruct (skip_ws r2) as [|c' r3]; [discriminate H|]. simpl in Hw2.
  destruct (char_eqb c' rbrace).
  - injection H as <- <-. lia.
  - destruct (char_eqb c' (ord ",")); [|discriminate H].
    pose proof (skip_ws_length r3) as Hw3.
    destruct (skip_ws r3) as [|c'' r4]; [discriminate H|]. simpl in Hw3.
    destruct (char_eqb c'' dquote); [|discriminate H].
    apply IH in H. lia.
Qed.

Lemma object_loop_fuel : forall n s pairs f1 f2,
  length s < n -> length s < f1 -> length s < f2 ->
  object_loop scan f1 s pairs = object_loop scan f2 s pairs.
Proof.
  induction n as [|n IH]; intros s pairs f1 f2 Hn H1 H2; [lia|].
  destruct f1 as [|f1]; [lia|]. destruct f2 as [|f2]; [lia|].
  cbn [object_loop]. unfold bind.
  destruct (scanstring s) as [[key r0]|] eqn:Hk; [|reflexivity].
  apply (scanstring_shorter (length s)) in Hk; [|lia].
  pose proof (skip_ws_length r0) as Hw0.
  destruct (skip_ws r0) as [|c r1]; [reflexivity|]. simpl in Hw0.
  destruct (char_eqb c (ord ":")); [|reflexivity].
  pose proof (skip_ws_length r1) as Hw1.
  destruct (scan (skip_ws r1)) as [[value r2]|] eqn:Hs; [|reflexivity].
  apply scan_shorter in Hs. pose proof (skip_ws_length r2) as Hw2.
  destruct (skip_ws r2) as [|c' r3]; [reflexivity|]. simpl in Hw2.
  destruct (char_eqb c' rbrace); [reflexivity|].
  destruct (char_eqb c' (ord ",")); [|reflexivity].
  pose proof (skip_ws_length r3) as Hw3.
  destruct (skip_ws r3) as [|c'' r4]; [reflexivity|]. simpl in Hw3.
  destruct (char_eqb c'' dquote); [|reflexivity].
  apply IH; lia.
Qed.

Lemma JSONObject_shorter s v r :
  JSONObject scan s = Ok (v, r) -> length r <= length s.
Proof.
  unfold JSONObject. pose proof (skip_ws_length s) as Hw.
  destruct (skip_ws s) as [|c r1]; [discriminate|]. simpl in Hw.
  destruct (char_eqb c rbrace).
  - intros H. injection H as <- <-. lia.
  - destruct (char_eqb c dquote); [|discriminate].
    intros H. apply object_loop_shorter in H. lia.
Qed.

End Loops.

Lemma skipn_shorter k (c : char) t :
  length (skipn k t) < length (c :: t).
Proof. rewrite length_skipn. simpl. lia. Qed.

(** Every value the scanner returns took at least one character. *)
Lemma scan_once_shorter rt : forall depth s v r,
  scan_once rt depth s = Ok (v, r) -> length r < length s.
Proof.
  induction depth as [|d IH]; intros s v r H; [discriminate H|].
  cbn [scan_once] in H. destruct s as [|c t]; [discriminate H|].
  destruct (char_eqb c dquote).
  { unfold bind in H.
    destruct (scanstring t) as [[x r0]|] eqn:Hs; [|discriminate H].
    injection H as <- <-.
    apply (scanstring_shorter (length t)) in Hs; simpl; lia. }
  destruct (char_eqb c (ord "{")).
  { apply (JSONObject_shorter _ IH) in H. simpl. lia. }
  destruct (char_eqb c (ord "[")).
  { apply (JSONArray_shorter _ IH) in H. simpl. lia. }
  destruct (startswith (lit "null") (c :: t)).
  { injection H as <- <-. apply (skipn_shorter 3). }
  destruct (startswith (lit "true") (c :: t)).
  { injection H as <- <-. apply (skipn_shorter 3). }
  destruct (startswith (lit "false") (c :: t)).
  { injection H as <- <-. apply (skipn_shorter 4). }
  destruct (match_number (c :: t)) as [[[[i f] e] r0]|] eqn:Hm.
  { apply match_number_shorter in Hm. unfold bind in H.
    destruct (f ++ e).
    - destruct (parse_int rt i); [|discriminate H]. now injection H as <- <-.
    - destruct (parse_float rt _); [|discriminate H].
      now injection H as <- <-. }
  destruct (startswith (lit "NaN") (c :: t)).
  { injection H as <- <-. apply (skipn_shorter 2). }
  destruct (startswith (lit "Infinity") (c :: t)).
  { injection H as <- <-. apply (skipn_shorter 7). }
  destruct (startswith (lit "-Infinity") (c :: t)); [|discriminate H].
  injection H as <- <-. apply (skipn_shorter 8).
Qed.

(** The loops of [JSONArray] and [JSONObject] never run out of fuel
    under [scan_once]: more fuel than they are given changes nothing. *)
Lemma array_fuel_is_enough rt depth s vals extra :
  array_loop (scan_once rt depth) (S (length s) + extra) s vals
  = array_loop (scan_once rt depth) (S (length s)) s vals.
Proof.
  apply (array_loop_fuel _ (scan_once_shorter rt depth) (S (length s)));
    lia.
Qed.

Lemma object_fuel_is_enough rt depth s pairs extra :
  object_loop (scan_once rt depth) (S (length s) + extra) s pairs
  = object_loop (scan_once rt depth) (S (length s)) s pairs.
Proof.
  apply (object_loop_fuel _ (scan_once_shorter rt depth) (S (length s)));
    lia.
Qed.

End JsonFacts.

(** * The claims *)

Import Patterns PatternFacts.

Ltac with_depth H :=
  match type of H with
  | _ <= recursion_limit ?rt =>
      let depth := fresh "depth" in
      destruct rt as [depth ? ? ?]; cbn [recursion_limit] in H;
      repeat (destruct depth as [|depth]; [exfalso; lia|])
  end.

Ltac run := vm_compute; reflexivity.

(** C1 (the code departs from it). The claim: no exception escapes either
    extractor, a payload element that is not a mapping is skipped. The
    code: on the input [[1]] the test [key in item] runs outside the
    [try] on the integer 1, and the [TypeError] it raises escapes both
    extractors. *)
Theorem non_mapping_element_raises rt :
  2 <= recursion_limit rt ->
  fst (decode_json_points rt (lit "[1]")) = Raise TypeError /\
  fst (decode_json_bboxes rt (lit "[1]")) = Raise TypeError.
Proof. intros H. with_depth H. split; run. Qed.

Lemma non_mapping_element_raises_witness :
  2 <= recursion_limit cpython /\
  fst (decode_json_points cpython (lit "[1]")) = Raise TypeError /\
  fst (decode_json_bboxes cpython (lit "[1]")) = Raise TypeError.
Proof.
  assert (H : 2 <= recursion_limit cpython) by (simpl; lia).
  exact (conj H (non_mapping_element_raises cpython H)).
Defined.

(** The same gap lets two more exceptions out: the payload [true] cannot
    be iterated, and an integer of 309 digits does not fit a double. *)
Lemma other_escaping_exceptions rt st :
  extract (point_item rt) (PBool true) = Raise TypeError /\
  fst (point_item rt
         (PDict [(lit "point_2d", PList [PInt (10 ^ 308 * 2); PInt 0])]) st)
  = Raise OverflowError.
Proof. split; vm_compute; reflexivity. Qed.

(** C2 (the code departs from it). The claim: for every input text each
    extractor returns a pair of sequences of equal length. The code: on
    the input [5] the payload is the integer 5, the [for] loop cannot
    iterate it, and both extractors raise [TypeError] instead of
    returning a pair. *)
Theorem scalar_payload_raises rt :
  1 <= recursion_limit rt ->
  fst (decode_json_points rt (lit "5")) = Raise TypeError /\
  fst (decode_json_bboxes rt (lit "5")) = Raise TypeError.
Proof. intros H. with_depth H. split; run. Qed.

Lemma scalar_payload_raises_witness :
  1 <= recursion_limit cpython /\
  fst (decode_json_points cpython (lit "5")) = Raise TypeError /\
  fst (decode_json_bboxes cpython (lit "5")) = Raise TypeError.
Proof.
  assert (H : 1 <= recursion_limit cpython) by (simpl; lia).
  exact (conj H (scalar_payload_raises cpython H)).
Defined.

Lemma decode_json_points_extract rt text :
  fst (decode_json_points rt text)
  = extract (point_item rt) (fst (safe_json_load rt text)).
Proof.
  unfold decode_json_points. now destruct (safe_json_load rt text).
Qed.

Lemma decode_json_bboxes_extract rt text :
  fst (decode_json_bboxes rt text)
  = extract (bbox_item rt) (fst (safe_json_load rt text)).
Proof.
  unfold decode_json_bboxes. now destruct (safe_json_load rt text).
Qed.

(** The invariant behind C2: whenever an extractor returns, its two lists
    have the same length. *)
Lemma returned_lists_have_equal_length rt text pts lbls :
  fst (decode_json_points rt text) = Ok (pts, lbls) \/
  fst (decode_json_bboxes rt text) = Ok (pts, lbls) ->
  length pts = length lbls.
Proof.
  rewrite decode_json_points_extract, decode_json_bboxes_extract.
  intros [H|H].
  - destruct (Loops.extract_ok rt _ _ _ (point_item rt)
                (Loops.point_item_ok rt) _ _ _ H) as [-> ->].
    now rewrite !length_map.
  - destruct (Loops.extract_ok rt _ _ _ (bbox_item rt)
                (Loops.bbox_item_ok rt) _ _ _ H) as [-> ->].
    now rewrite !length_map.
Qed.

(** The rest of C2: a payload that is absent or empty gives two empty
    lists. *)
Lemma empty_payload_gives_empty_lists rt text :
  py_not (fst (safe_json_load rt text)) = true ->
  fst (decode_json_points rt text) = Ok ([], []) /\
  fst (decode_json_bboxes rt text) = Ok ([], []).
Proof.
  rewrite decode_json_points_extract, decode_json_bboxes_extract.
  unfold extract. now intros ->.
Qed.

Lemma coords_of_nth rt key n : forall items k item,
  nth_error (filter (Spec.accepts rt key n) items) k = Some item ->
  nth_error (Spec.coords_of rt key n items) k = Spec.record_of rt key n item.
Proof.
  induction items as [|a rest IH]; intros k item H; simpl in *.
  - destruct k; discriminate.
  - unfold Spec.accepts at 1 in H.
    destruct (Spec.record_of rt key n a) as [c|] eqn:Ha.
    + destruct k as [|k]; simpl in *.
      * injection H as <-. now rewrite Ha.
      * now apply IH.
    + now apply IH.
Qed.

Lemma label_of_unlabelled rt prefix k item :
  py_contains (lit "label") item = Ok false ->
  Spec.label_of rt prefix k item = prefix ++ decimal_of_N (N.of_nat k).
Proof.
  destruct item; simpl; try reflexivity.
  destruct (dict_get (lit "label") d); [discriminate | reflexivity].
Qed.

Lemma synthesized_label rt key n prefix body
    (body_ok : forall item st st',
       body item st = (Ok tt, st') -> st' = Spec.step rt key n prefix st item)
    data pts lbls k item :
  extract body data = Ok (pts, lbls) ->
  nth_error (filter (Spec.accepts rt key n) (Spec.elements data)) k
    = Some item ->
  py_contains (lit "label") item = Ok false ->
  nth_error pts k = Spec.record_of rt key n item /\
  nth_error lbls k = Some (prefix ++ decimal_of_N (N.of_nat (k + 1))).
Proof.
  intros H Hk Hl.
  destruct (Loops.extract_ok rt key n prefix body body_ok _ _ _ H)
    as [-> ->].
  rewrite Loops.records_coords, Loops.records_labels. split.
  - now apply coords_of_nth.
  - rewrite (Loops.number_nth rt prefix _ 0 k item Hk). cbn [Nat.add].
    now rewrite label_of_unlabelled.
Qed.

(** C3. In a run that returns, the [k]-th accepted element of the payload
    (counting from 0, skipped elements not counted) is the [k]-th record
    of the output, and when it has no [label] its label is [point_] (for
    boxes [bbox_]) followed by [k + 1]. On the text of the specification
    the element without [point_2d] is skipped and the one point is
    labelled [point_1]. *)
Theorem synthesized_label_counts_accepted rt :
  (forall text pts lbls k item,
     fst (decode_json_points rt text) = Ok (pts, lbls) ->
     nth_error (filter (Spec.accepts rt (lit "point_2d") 2)
                  (Spec.elements (fst (safe_json_load rt text)))) k
       = Some item ->
     py_contains (lit "label") item = Ok false ->
     nth_error pts k = Spec.record_of rt (lit "point_2d") 2 item /\
     nth_error lbls k
       = Some (lit "point_" ++ decimal_of_N (N.of_nat (k + 1))))
  /\
  (forall text boxes lbls k item,
     fst (decode_json_bboxes rt text) = Ok (boxes, lbls) ->
     nth_error (filter (Spec.accepts rt (lit "bbox_2d") 4)
                  (Spec.elements (fst (safe_json_load rt text)))) k
       = Some item ->
     py_contains (lit "label") item = Ok false ->
     nth_error boxes k = Spec.record_of rt (lit "bbox_2d") 4 item /\
     nth_error lbls k
       = Some (lit "bbox_" ++ decimal_of_N (N.of_nat (k + 1))))
  /\
  (4 <= recursion_limit rt ->
   decode_json_points rt
     (lit "[{" ++ q "x" ++ lit ":1}, {" ++ q "point_2d" ++ lit ":[0.2,0.3]}]")
   = (Ok ([[fifth; three_tenths]], [lit "point_1"]), [])).
Proof.
  split; [|split].
  - intros text pts lbls k item. rewrite decode_json_points_extract.
    apply (synthesized_label rt _ _ _ _ (Loops.point_item_ok rt)).
  - intros text pts lbls k item. rewrite decode_json_bboxes_extract.
    apply (synthesized_label rt _ _ _ _ (Loops.bbox_item_ok rt)).
  - intros H. with_depth H. run.
Qed.

Lemma synthesized_label_counts_accepted_witness :
  let text :=
    lit "[{" ++ q "x" ++ lit ":1}, {" ++ q "point_2d" ++ lit ":[0.2,0.3]}]" in
  let point :=
    PDict [(lit "point_2d", PList [PFloat fifth; PFloat three_tenths])] in
  nth_error [[fifth; three_tenths]] 0
    = Spec.record_of cpython (lit "point_2d") 2 point /\
  nth_error [lit "point_1"] 0
    = Some (lit "point_" ++ decimal_of_N (N.of_nat (0 + 1))).
Proof.
  intros text point.
  apply (proj1 (synthesized_label_counts_accepted cpython)
           text _ _ 0 point); vm_compute; reflexivity.
Defined.

(** C4 as stated fails: the payload of [[{"point_2d": "12"}]] has no
    element whose [point_2d] holds two numeric values, yet the point
    extractor emits a point: it unpacks the string into its two
    characters and converts each with [float]. *)
Lemma string_coordinates_are_emitted :
  let text := lit "[{" ++ q "point_2d" ++ lit ": " ++ q "12" ++ lit "}]" in
  let items := [PDict [(lit "point_2d", PStr (lit "12"))]] in
  safe_json_load cpython text = (PList items, []) /\
  filter (Stated.well_formed (lit "point_2d") 2) items = [] /\
  fst (decode_json_points cpython text)
    = Ok ([[one; two]], [lit "point_1"]).
Proof. repeat split; run. Qed.

Lemma handled_extract rt key n prefix body
    (body_ok : forall item st st',
       body item st = (Ok tt, st') -> st' = Spec.step rt key n prefix st item)
    (body_handled : forall item st,
       Spec.handled rt key item = true -> fst (body item st) = Ok tt)
    items :
  forallb (Spec.handled rt key) items = true ->
  extract body (PList items)
  = Ok (Spec.coords_of rt key n items,
        Spec.number rt prefix 0 (filter (Spec.accepts rt key n) items)).
Proof.
  intros H.
  destruct (Loops.extract_handled rt key body body_handled items H)
    as (pts & lbls & Hex).
  destruct (Loops.extract_ok rt key n prefix body body_ok _ _ _ Hex)
    as [Hp Hl].
  cbn [Spec.elements] in Hp, Hl.
  rewrite Loops.records_coords in Hp. rewrite Loops.records_labels in Hl.
  now subst.
Qed.

(** C4, amended. For a text whose payload is a list whose elements
    support [in] (they are mappings, lists or strings) and have no integer
    beyond the doubles among the entries of their [point_2d] (resp.
    [bbox_2d]), the point extractor returns, in input order, exactly the
    records of the accepted elements: the mappings whose [point_2d] yields
    exactly 2 values when iterated, each of which [float] converts; the
    box extractor does the same with [bbox_2d] and exactly 4 values.
    Labels are those of the accepted elements, numbered in output order.
    A box with three coordinates contributes neither coordinates nor
    label. *)
Theorem extractors_emit_accepted_elements rt text items :
  fst (safe_json_load rt text) = PList items ->
  (forallb (Spec.handled rt (lit "point_2d")) items = true ->
   fst (decode_json_points rt text)
   = Ok (Spec.coords_of rt (lit "point_2d") 2 items,
         Spec.number rt (lit "point_") 0
           (filter (Spec.accepts rt (lit "point_2d") 2) items)))
  /\
  (forallb (Spec.handled rt (lit "bbox_2d")) items = true ->
   fst (decode_json_bboxes rt text)
   = Ok (Spec.coords_of rt (lit "bbox_2d") 4 items,
         Spec.number rt (lit "bbox_") 0
           (filter (Spec.accepts rt (lit "bbox_2d") 4) items)))
  /\
  (4 <= recursion_limit rt ->
   decode_json_bboxes rt
     (lit "[{" ++ q "bbox_2d" ++ lit ":[0,0,1]}, {"
      ++ q "bbox_2d" ++ lit ":[0,0,1,1]}]")
   = (Ok ([[zero; zero; one; one]], [lit "bbox_1"]), [])).
Proof.
  intros Hload.
  rewrite decode_json_points_extract, decode_json_bboxes_extract, Hload.
  split; [|split].
  - apply handled_extract.
    + apply Loops.point_item_ok.
    + apply Loops.point_item_handled.
  - apply handled_extract.
    + apply Loops.bbox_item_ok.
    + apply Loops.bbox_item_handled.
  - intros H. with_depth H. run.
Qed.

Lemma extractors_emit_accepted_elements_witness :
  let text :=
    lit "[{" ++ q "x" ++ lit ":1}, {" ++ q "point_2d" ++ lit ":[0.2, "
    ++ q "0.3" ++ lit "]}, {" ++ q "point_2d" ++ lit ":[1]}, "
    ++ q "point_2d" ++ lit "]" in
  fst (decode_json_points cpython text)
  = Ok ([[fifth; three_tenths]], [lit "point_1"]).
Proof.
  intros text.
  refine (proj1 (extractors_emit_accepted_elements cpython text
                   [PDict [(lit "x", PInt 1)];
                    PDict [(lit "point_2d",
                            PList [PFloat fifth; PStr (lit "0.3")])];
                    PDict [(lit "point_2d", PList [PInt 1])];
                    PStr (lit "point_2d")] _) _);
    vm_compute; reflexivity.
Defined.

(** C5 as stated fails: a JSON string whose content is a fenced block is
    valid JSON with no single quote and no trailing comma; parsed directly
    it is that string, but the normalizer cuts the block out first and
    returns the number inside it. *)
Lemma fence_inside_a_string_is_cut_out :
  let text := q "```json 1 ```" in
  has_squote text = false /\
  has_trailing_comma rbrace text = false /\
  has_trailing_comma rbracket text = false /\
  Json.loads cpython text = Ok (PStr (lit "```json 1 ```")) /\
  safe_json_load cpython text = (PInt 1, []).
Proof. repeat split; run. Qed.

Lemma repair_identity text :
  has_squote text = false ->
  has_trailing_comma rbrace text = false ->
  has_trailing_comma rbracket text = false ->
  repair text = text.
Proof.
  intros Hq Hb Hk. unfold repair.
  rewrite (ReFacts.sub_none _ _ _ (quote_search_none _ Hq)).
  rewrite (ReFacts.sub_none _ _ _ (comma_search_none _ _ Hb)).
  now rewrite (ReFacts.sub_none _ _ _ (comma_search_none _ _ Hk)).
Qed.

Lemma fenced_identity text : has_fence text = false -> fenced text = text.
Proof.
  intros H. unfold fenced. now rewrite (fence_search_none _ H).
Qed.

(** C5, amended. For every text that [json.loads] accepts and that holds
    no single quote, no comma followed (after white space, if any) by a
    closing brace or bracket, and no [json]-tagged opening fence followed
    by a closing fence, [safe_json_load] returns what [json.loads] returns
    for the text itself, and prints nothing. *)
Theorem valid_json_passes_unchanged rt text data :
  Json.loads rt text = Ok data ->
  has_squote text = false ->
  has_trailing_comma rbrace text = false ->
  has_trailing_comma rbracket text = false ->
  has_fence text = false ->
  safe_json_load rt text = (data, []).
Proof.
  intros Hl Hq Hb Hk Hf. unfold safe_json_load.
  now rewrite (fenced_identity _ Hf), (repair_identity _ Hq Hb Hk), Hl.
Qed.

Lemma valid_json_passes_unchanged_witness :
  safe_json_load cpython (lit "[{" ++ q "point_2d" ++ lit ":[0.5,0.5]}]")
  = (PList [PDict [(lit "point_2d", PList [PFloat half; PFloat half])]], []).
Proof.
  apply valid_json_passes_unchanged; vm_compute; reflexivity.
Defined.

(** C6 as stated fails: a fenced block without the [json] tag is a block
    in the words of the claim, whose pattern finds the record in it; the
    code looks for the tagged fence only, leaves the text as it is, fails
    to parse it and extracts nothing. *)
Lemma untagged_fence_is_not_isolated :
  let record := lit "{" ++ q "point_2d" ++ lit ": [0.1, 0.2]}" in
  let text := lit "```" ++ newline ++ record ++ newline ++ lit "```" in
  option_map Re.group1 (Re.search Stated.optional_tag_fence_re text) = Some record /\
  fenced text = text /\
  decode_json_points cpython text = (Ok ([], []), [JSONDecodeError]).
Proof. repeat split; run. Qed.

Lemma fenced_block text :
  has_fence text = true ->
  exists pre ws1 body ws2 post,
    text = pre ++ fence_open ++ ws1 ++ body ++ ws2 ++ fence_close ++ post
    /\ forallb isspace ws1 = true /\ forallb isspace ws2 = true
    /\ (forall p1 p2, pre = p1 ++ p2 -> p2 <> [] ->
          fence_starts
            (p2 ++ fence_open ++ ws1 ++ body ++ ws2 ++ fence_close ++ post)
          = false)
    /\ (forall b1 b2, body = b1 ++ b2 -> b2 <> [] ->
          startswith fence_close (b2 ++ ws2 ++ fence_close ++ post) = false)
    /\ fenced text = strip body.
Proof.
  intros H. apply fence_search_some in H. unfold fenced.
  destruct (Re.search fence_re text) as [m|] eqn:Hs; [clear H | easy].
  apply ReFacts.search_sound in Hs as (pre & rest & -> & Hm & Hleft).
  apply fence_here_sound in Hm as Hd.
  destruct Hd as (ws1 & body & ws2 & -> & Hw1 & Hw2 & Hg & Hmin).
  exists pre, ws1, body, ws2, (Re.after m). repeat split; auto.
  - intros p1 p2 Hp Hn. apply fence_starts_none. now apply (Hleft p1).
  - now rewrite Hg.
Qed.

(** C6, amended. The fence must carry the [json] tag. If the text holds
    an opening fence with the tag and a closing fence after it, the
    working text is, trimmed, what stands between the first opening fence
    that has a closing fence after it and the nearest closing fence, white
    space next to either fence left out; no such block starts earlier in
    the text and no closing fence starts inside that content. If the text
    holds no such pair (an untagged fence included), the working text is
    the input. The repairs and the parser then run on the working text,
    and the fenced record between prose yields one point. *)
Theorem tagged_fence_is_isolated rt text :
  (has_fence text = false -> fenced text = text)
  /\
  (has_fence text = true ->
   exists pre ws1 body ws2 post,
     text = pre ++ fence_open ++ ws1 ++ body ++ ws2 ++ fence_close ++ post
     /\ forallb isspace ws1 = true /\ forallb isspace ws2 = true
     /\ (forall p1 p2, pre = p1 ++ p2 -> p2 <> [] ->
           fence_starts
             (p2 ++ fence_open ++ ws1 ++ body ++ ws2 ++ fence_close ++ post)
           = false)
     /\ (forall b1 b2, body = b1 ++ b2 -> b2 <> [] ->
           startswith fence_close (b2 ++ ws2 ++ fence_close ++ post)
           = false)
     /\ fenced text = strip body)
  /\
  safe_json_load rt text
  = match Json.loads rt (repair (fenced text)) with
    | Ok data => (data, [])
    | Raise e => (PNone, [e])
    end
  /\
  (3 <= recursion_limit rt ->
   decode_json_points rt
     (lit "Here: ```json" ++ newline
      ++ lit "{" ++ q "point_2d" ++ lit ": [0.1, 0.2]}" ++ newline
      ++ lit "``` done")
   = (Ok ([[tenth; fifth]], [lit "point_1"]), [])).
Proof.
  split; [|split; [|split]].
  - apply fenced_identity.
  - apply fenced_block.
  - reflexivity.
  - intros H. with_depth H. run.
Qed.

Lemma tagged_fence_is_isolated_witness :
  fenced (lit "```" ++ newline ++ lit "[]" ++ newline ++ lit "```")
  = lit "```" ++ newline ++ lit "[]" ++ newline ++ lit "```"
  /\
  exists pre ws1 body ws2 post,
    lit "see ```json [] ``` ok"
    = pre ++ fence_open ++ ws1 ++ body ++ ws2 ++ fence_close ++ post
    /\ fenced (lit "see ```json [] ``` ok") = strip body.
Proof.
  split.
  - apply (proj1 (tagged_fence_is_isolated cpython _)). reflexivity.
  - destruct (proj1 (proj2 (tagged_fence_is_isolated cpython
               (lit "see ```json [] ``` ok"))) eq_refl)
      as (pre & ws1 & body & ws2 & post & Ht & _ & _ & _ & _ & Hf).
    now exists pre, ws1, body, ws2, post.
Defined.

Lemma star_greedy_fails A cls s (k : str -> option A) :
  (forall w s', s = w ++ s' -> k s' = None) ->
  Re.star_greedy cls s k = None.
Proof.
  intros H. destruct (Re.star_greedy cls s k) as [a|] eqn:Hs; [|reflexivity].
  apply ReFacts.star_greedy_sound in Hs as (w & s' & Heq & _ & Hk).
  rewrite (H w s' Heq) in Hk. discriminate.
Qed.

Lemma has_squote_app a b :
  has_squote (a ++ b) = has_squote a || has_squote b.
Proof. unfold has_squote. apply existsb_app. Qed.

(** A quote with no quote after it is left alone. *)
Lemma quote_here_unpaired body :
  has_squote body = false ->
  Re.match_here quote_re (squote :: body) = None.
Proof.
  intros Hb. unfold Re.match_here, quote_re. cbn [Re.rmatch].
  rewrite char_eqb_refl. apply star_greedy_fails.
  intros w s' ->. rewrite has_squote_app in Hb.
  apply orb_false_iff in Hb as [_ Hs'].
  destruct s' as [|c s']; [reflexivity|]. simpl in Hs'.
  apply orb_false_iff in Hs' as [Hc _]. now rewrite Hc.
Qed.

Lemma quote_repair_unpaired pre body :
  has_squote pre = false -> has_squote body = false ->
  Re.sub quote_re quote_repl (pre ++ squote :: body)
  = pre ++ squote :: body.
Proof.
  intros Hpre Hbody. induction pre as [|c pre IH]; cbn [app].
  - rewrite ReFacts.sub_skip by now apply quote_here_unpaired.
    now rewrite (ReFacts.sub_none _ _ _ (quote_search_none _ Hbody)).
  - simpl in Hpre. apply orb_false_iff in Hpre as [Hc Hpre].
    rewrite ReFacts.sub_skip by (apply quote_here_other; exact Hc).
    now rewrite IH.
Qed.













(** C9. When parsing the repaired text raises, [safe_json_load] prints the
    exception and returns [None], and both extractors return two empty
    lists; so they do on the empty text and on a text with no JSON in it,
    where the exception is a [JSONDecodeError]. *)
Theorem parse_failure_gives_empty_lists rt :
  (forall text e,
     Json.loads rt (repair (fenced text)) = Raise e ->
     safe_json_load rt text = (PNone, [e]) /\
     decode_json_points rt text = (Ok ([], []), [e]) /\
     decode_json_bboxes rt text = (Ok ([], []), [e]))
  /\
  (1 <= recursion_limit rt ->
   decode_json_points rt [] = (Ok ([], []), [JSONDecodeError]) /\
   decode_json_bboxes rt [] = (Ok ([], []), [JSONDecodeError]) /\
   decode_json_points rt (lit "no json here")
   = (Ok ([], []), [JSONDecodeError]) /\
   decode_json_bboxes rt (lit "no json here")
   = (Ok ([], []), [JSONDecodeError])).
Proof.
  split.
  - intros text e H.
    unfold decode_json_points, decode_json_bboxes, safe_json_load.
    rewrite H. repeat split.
  - intros H. with_depth H. repeat split; run.
Qed.

Lemma parse_failure_gives_empty_lists_witness :
  decode_json_points cpython (lit "{'point_2d': [1, 2") =
    (Ok ([], []), [JSONDecodeError]) /\
  decode_json_bboxes cpython [] = (Ok ([], []), [JSONDecodeError]).
Proof.
  split.
  - apply (proj1 (parse_failure_gives_empty_lists cpython)).
    vm_compute. reflexivity.
  - apply (proj2 (parse_failure_gives_empty_lists cpython)).
    simpl. lia.
Defined.

Lemma str_eqb_refl s : str_eqb s s = true.
Proof. now apply str_eqb_eq. Qed.

Lemma dict_get_set_same k v : forall d,
  dict_get k (dict_set k v d) = Some v.
Proof.
  induction d as [|[k0 v0] d IH]; simpl.
  - now rewrite str_eqb_refl.
  - destruct (str_eqb k0 k) eqn:Hk; simpl; rewrite Hk; auto.
Qed.

Lemma dict_get_set_other k k' v : forall d,
  str_eqb k k' = false ->
  dict_get k' (dict_set k v d) = dict_get k' d.
Proof.
  intros d Hk. induction d as [|[k0 v0] d IH]; simpl.
  - now rewrite Hk.
  - destruct (str_eqb k0 k) eqn:H0; simpl.
    + apply str_eqb_eq in H0. subst k0. now rewrite Hk.
    + destruct (str_eqb k0 k'); auto.
Qed.

Lemma point_item_step rt item st :
  Spec.handled rt (lit "point_2d") item = true ->
  point_item rt item st
  = (Ok tt, Spec.step rt (lit "point_2d") 2 (lit "point_") st item).
Proof.
  intros H. pose proof (Loops.point_item_handled rt item st H) as Hf.
  destruct (point_item rt item st) as [r st'] eqn:Hp. simpl in Hf.
  subst r. now rewrite (Loops.point_item_ok rt _ _ _ Hp).
Qed.

Lemma bbox_item_step rt item st :
  Spec.handled rt (lit "bbox_2d") item = true ->
  bbox_item rt item st
  = (Ok tt, Spec.step rt (lit "bbox_2d") 4 (lit "bbox_") st item).
Proof.
  intros H. pose proof (Loops.bbox_item_handled rt item st H) as Hf.
  destruct (bbox_item rt item st) as [r st'] eqn:Hp. simpl in Hf.
  subst r. now rewrite (Loops.bbox_item_ok rt _ _ _ Hp).
Qed.

(** An element whose entries under [key] are the strings [ss], which
    [float] converts to [xs], against the same element with the numbers
    [xs] there: [step] cannot tell them apart. *)
Lemma step_strings_as_numbers rt key n prefix d ss xs st :
  str_eqb key (lit "label") = false ->
  dict_get key d = Some (PList (List.map PStr ss)) ->
  length ss = n ->
  List.map (float_of_str rt) ss = List.map Ok xs ->
  let numbers := PDict (dict_set key (PList (List.map PFloat xs)) d) in
  Spec.handled rt key (PDict d) = true /\
  Spec.handled rt key numbers = true /\
  Spec.step rt key n prefix st (PDict d)
  = {| coords := coords st ++ [xs];
       labels := labels st ++
         [Spec.label_of rt prefix (S (length (coords st))) (PDict d)] |} /\
  Spec.step rt key n prefix st numbers
  = Spec.step rt key n prefix st (PDict d).
Proof.
  intros Hkey Hd Hn Hx.
  assert (Hlen : length xs = n).
  { rewrite <- Hn, <- (length_map (float_of_str rt) ss), Hx.
    symmetry. apply length_map. }
  assert (Hfs : Spec.floats_of rt (List.map PStr ss) = Some xs).
  { clear Hd Hn Hlen. revert xs Hx.
    induction ss as [|s ss IH]; intros [|x xs] Hx; simpl in Hx;
      try discriminate; [reflexivity|].
    injection Hx as Hs Hx. simpl. now rewrite Hs, (IH _ Hx). }
  assert (Hfn : Spec.floats_of rt (List.map PFloat xs) = Some xs).
  { clear. induction xs as [|x xs IH]; simpl; [reflexivity|].
    now rewrite IH. }
  assert (Hrs : forallb (Spec.in_range rt) (List.map PStr ss) = true).
  { clear Hd Hn Hlen Hfs Hfn. revert xs Hx.
    induction ss as [|s ss IH]; intros [|x xs] Hx; simpl in Hx;
      try discriminate; [reflexivity|].
    injection Hx as Hs Hx. simpl. unfold Spec.in_range at 1. simpl.
    now rewrite Hs, (IH _ Hx). }
  assert (Hrn : forallb (Spec.in_range rt) (List.map PFloat xs) = true).
  { clear. induction xs as [|x xs IH]; simpl; [reflexivity|]. exact IH. }
  intros numbers.
  unfold numbers, Spec.step, Spec.record_of, Spec.handled, Spec.label_of.
  rewrite dict_get_set_same, dict_get_set_other, Hd by exact Hkey.
  cbn [py_iter]. rewrite !length_map, Hn, Hlen, Nat.eqb_refl, Hfs, Hfn.
  auto.
Qed.

(** C10. An element whose [point_2d] is a pair of strings that [float]
    converts is accepted: its turn of the loop ends normally and appends
    the two converted values; the run is the run of the same element with
    those two numbers in place of the strings, coordinates and label
    alike. So for boxes and four strings. On texts: the point with the
    strings [0.5] and [0.5] is the point with the numbers, and the box
    with the strings [0], [0], [1], [1] is the box with the integers. *)
Theorem numeric_strings_are_coerced rt :
  (forall d s1 s2 x y st,
     dict_get (lit "point_2d") d = Some (PList [PStr s1; PStr s2]) ->
     float_of_str rt s1 = Ok x -> float_of_str rt s2 = Ok y ->
     let numbers :=
       PDict (dict_set (lit "point_2d") (PList [PFloat x; PFloat y]) d) in
     fst (point_item rt (PDict d) st) = Ok tt /\
     coords (snd (point_item rt (PDict d) st)) = coords st ++ [[x; y]] /\
     point_item rt (PDict d) st = point_item rt numbers st)
  /\
  (forall d s1 s2 s3 s4 x1 x2 x3 x4 st,
     dict_get (lit "bbox_2d") d
       = Some (PList [PStr s1; PStr s2; PStr s3; PStr s4]) ->
     float_of_str rt s1 = Ok x1 -> float_of_str rt s2 = Ok x2 ->
     float_of_str rt s3 = Ok x3 -> float_of_str rt s4 = Ok x4 ->
     let numbers :=
       PDict (dict_set (lit "bbox_2d")
                (PList [PFloat x1; PFloat x2; PFloat x3; PFloat x4]) d) in
     fst (bbox_item rt (PDict d) st) = Ok tt /\
     coords (snd (bbox_item rt (PDict d) st))
       = coords st ++ [[x1; x2; x3; x4]] /\
     bbox_item rt (PDict d) st = bbox_item rt numbers st)
  /\
  (3 <= recursion_limit rt ->
   decode_json_points rt
     (lit "{" ++ q "point_2d" ++ lit ": [" ++ q "0.5" ++ lit ", "
      ++ q "0.5" ++ lit "]}")
   = (Ok ([[half; half]], [lit "point_1"]), [])
   /\
   decode_json_points rt (lit "{" ++ q "point_2d" ++ lit ": [0.5, 0.5]}")
   = (Ok ([[half; half]], [lit "point_1"]), [])
   /\
   decode_json_bboxes rt
     (lit "{" ++ q "bbox_2d" ++ lit ": [" ++ q "0" ++ lit ", " ++ q "0"
      ++ lit ", " ++ q "1" ++ lit ", " ++ q "1" ++ lit "]}")
   = (Ok ([[zero; zero; one; one]], [lit "bbox_1"]), [])
   /\
   decode_json_bboxes rt (lit "{" ++ q "bbox_2d" ++ lit ": [0, 0, 1, 1]}")
   = (Ok ([[zero; zero; one; one]], [lit "bbox_1"]), [])).
Proof.
  split; [|split].
  - intros d s1 s2 x y st Hd H1 H2 numbers.
    destruct (step_strings_as_numbers rt (lit "point_2d") 2 (lit "point_")
                d [s1; s2] [x; y] st eq_refl Hd eq_refl)
      as (Hh & Hhn & Hs & Hsn).
    { simpl. now rewrite H1, H2. }
    cbn [List.map] in Hh, Hhn, Hs, Hsn. unfold numbers. rewrite (point_item_step rt _ st Hh).
    rewrite (point_item_step rt _ st Hhn). cbn [fst snd].
    rewrite Hsn, Hs. auto.
  - intros d s1 s2 s3 s4 x1 x2 x3 x4 st Hd H1 H2 H3 H4 numbers.
    destruct (step_strings_as_numbers rt (lit "bbox_2d") 4 (lit "bbox_")
                d [s1; s2; s3; s4] [x1; x2; x3; x4] st eq_refl Hd eq_refl)
      as (Hh & Hhn & Hs & Hsn).
    { simpl. now rewrite H1, H2, H3, H4. }
    cbn [List.map] in Hh, Hhn, Hs, Hsn. unfold numbers. rewrite (bbox_item_step rt _ st Hh).
    rewrite (bbox_item_step rt _ st Hhn). cbn [fst snd].
    rewrite Hsn, Hs. auto.
  - intros H. with_depth H. repeat split; run.
Qed.

Lemma numeric_strings_are_coerced_witness :
  let d := [(lit "point_2d", PList [PStr (lit "0.5"); PStr (lit " 1e0 ")]);
            (lit "label", PStr (lit "eye"))] in
  let st := {| coords := []; labels := [] |} in
  fst (point_item cpython (PDict d) st) = Ok tt /\
  coords (snd (point_item cpython (PDict d) st)) = [] ++ [[half; one]] /\
  point_item cpython (PDict d) st
  = point_item cpython
      (PDict (dict_set (lit "point_2d") (PList [PFloat half; PFloat one]) d))
      st.
Proof.
  intros d st.
  apply (proj1 (numeric_strings_are_coerced cpython) d
           (lit "0.5") (lit " 1e0 ") half one st); reflexivity.
Defined.

(** * Further properties of [src/utils.py] *)

Import More.

(** ** The extractors *)

Lemma floats_of_length rt : forall es fs,
  Spec.floats_of rt es = Some fs -> length fs = length es.
Proof.
  induction es as [|e es IH]; intros fs H; simpl in H.
  - now injection H as <-.
  - destruct (py_float rt e); [|discriminate].
    destruct (Spec.floats_of rt es) as [fs'|]; [|discriminate].
    injection H as <-. simpl. now rewrite (IH fs').
Qed.

Lemma record_of_length rt key n item c :
  Spec.record_of rt key n item = Some c -> length c = n.
Proof.
  unfold Spec.record_of. destruct item; try discriminate.
  destruct (dict_get key d); [|discriminate].
  destruct (py_iter p) as [es|]; [|discriminate].
  destruct (Nat.eqb (length es) n) eqn:Hn; [|discriminate].
  apply Nat.eqb_eq in Hn. intros H. apply floats_of_length in H. lia.
Qed.

Lemma coords_of_arity rt key n : forall items,
  Forall (fun c => length c = n) (Spec.coords_of rt key n items).
Proof.
  induction items as [|item rest IH]; simpl; [constructor|].
  destruct (Spec.record_of rt key n item) as [c|] eqn:Hc; [|exact IH].
  constructor; [|exact IH]. eapply record_of_length; eauto.
Qed.

(** X1. Whenever [decode_json_points] returns, every point it returns
    has exactly two coordinates, and whenever [decode_json_bboxes]
    returns, every box has exactly four. *)
Theorem returned_records_have_fixed_arity rt text :
  (forall pts lbls,
     fst (decode_json_points rt text) = Ok (pts, lbls) ->
     Forall (fun p => length p = 2) pts)
  /\
  (forall boxes lbls,
     fst (decode_json_bboxes rt text) = Ok (boxes, lbls) ->
     Forall (fun b => length b = 4) boxes).
Proof.
  split; intros pts lbls H.
  - rewrite decode_json_points_extract in H.
    destruct (Loops.extract_ok rt _ _ _ (point_item rt)
                (Loops.point_item_ok rt) _ _ _ H) as [-> _].
    rewrite Loops.records_coords. apply coords_of_arity.
  - rewrite decode_json_bboxes_extract in H.
    destruct (Loops.extract_ok rt _ _ _ (bbox_item rt)
                (Loops.bbox_item_ok rt) _ _ _ H) as [-> _].
    rewrite Loops.records_coords. apply coords_of_arity.
Qed.

Lemma returned_records_have_fixed_arity_witness :
  Forall (fun p => length p = 2) [[half; half]].
Proof.
  apply (proj1 (returned_records_have_fixed_arity cpython
                  (lit "[{" ++ q "point_2d" ++ lit ":[0.5,0.5]},]"))
           _ [lit "point_1"]).
  vm_compute. reflexivity.
Defined.

Lemma point_item_escapes rt item st e st' :
  point_item rt item st = (Raise e, st') -> escapes e.
Proof.
  unfold point_item, seq, eval, escapes.
  destruct item as [| b | n | f | s | l | d]; cbn [py_contains];
    try (intros H; injection H as <- _; now left).
  - destruct (occurs _ s); unfold try_except, point_body, seq, eval;
      cbn; discriminate.
  - destruct (existsb _ l); unfold try_except, point_body, seq, eval;
      cbn; discriminate.
  - destruct (dict_get (lit "point_2d") d) as [v|] eqn:Hv;
      [|discriminate].
    unfold try_except, point_body, seq, eval, py_unpack2.
    cbn [py_getitem]. rewrite Hv. cbn [bind].
    destruct (py_iter v) as [es|x] eqn:Hi; cbn [bind].
    2:{ apply Loops.py_iter_raise in Hi. subst x. discriminate. }
    destruct es as [|a [|b [|c es]]]; try discriminate.
    cbn [fst snd].
    destruct (py_float rt a) as [x|x] eqn:Ha.
    2:{ destruct (Loops.py_float_raise rt _ _ Ha) as [-> | [-> | ->]];
        cbn; try discriminate. intros H. injection H as <- _. now right. }
    destruct (py_float rt b) as [y|y] eqn:Hb.
    2:{ destruct (Loops.py_float_raise rt _ _ Hb) as [-> | [-> | ->]];
        cbn; try discriminate. intros H. injection H as <- _. now right. }
    unfold append_coords, len_coords, append_label. cbn [py_get].
    destruct (dict_get (lit "label") d); discriminate.
Qed.

Lemma bbox_item_escapes rt item st e st' :
  bbox_item rt item st = (Raise e, st') -> escapes e.
Proof.
  unfold bbox_item, seq, eval, escapes.
  destruct item as [| b | n | f | s | l | d]; cbn [py_contains];
    try (intros H; injection H as <- _; now left).
  - destruct (occurs _ s); unfold try_except, bbox_body, seq, eval;
      cbn; discriminate.
  - destruct (existsb _ l); unfold try_except, bbox_body, seq, eval;
      cbn; discriminate.
  - destruct (dict_get (lit "bbox_2d") d) as [v|] eqn:Hv;
      [|discriminate].
    unfold try_except, bbox_body, seq, eval.
    cbn [py_getitem]. rewrite Hv. rewrite Loops.py_len_iter.
    destruct (py_iter v) as [es|x] eqn:Hi.
    2:{ apply Loops.py_iter_raise in Hi. subst x. discriminate. }
    destruct (Nat.eqb (length es) 4); cbn [negb]; [|discriminate].
    destruct (unpack_floats rt 4 es) as [box|x] eqn:Hu.
    2:{ destruct (Loops.unpack_floats_raise rt _ _ _ Hu)
          as [-> | [-> | ->]]; cbn; try discriminate.
        intros H. injection H as <- _. now right. }
    unfold append_coords, len_coords, append_label. cbn [py_get].
    destruct (dict_get (lit "label") d); discriminate.
Qed.

Lemma for_each_escapes body
    (body_escapes : forall item st e st',
       body item st = (Raise e, st') -> escapes e) :
  forall items st e st',
    for_each items body st = (Raise e, st') -> escapes e.
Proof.
  induction items as [|item rest IH]; intros st e st' H; simpl in H.
  - discriminate.
  - unfold seq in H. destruct (body item st) as [[u|x] st1] eqn:Hb.
    + eapply IH; eauto.
    + injection H as <- _. eapply body_escapes; eauto.
Qed.

Lemma extract_escapes body
    (body_escapes : forall item st e st',
       body item st = (Raise e, st') -> escapes e) data e :
  extract body data = Raise e -> escapes e.
Proof.
  unfold extract. destruct (py_not data); [discriminate|].
  destruct (py_iter _) as [items|x] eqn:Hi; cbn [bind].
  - destruct (for_each items body _) as [[u|x] st] eqn:Hf; [discriminate|].
    intros H. injection H as <-. eapply for_each_escapes; eauto.
  - apply Loops.py_iter_raise in Hi. subst x.
    intros H. injection H as <-. now left.
Qed.

(** X2. The only exceptions that leave an extractor are [TypeError] and
    [OverflowError]: a failure to parse, a [ValueError], a [KeyError] or
    an [AttributeError] never reaches the caller. *)
Theorem only_two_exceptions_escape rt text e :
  fst (decode_json_points rt text) = Raise e \/
  fst (decode_json_bboxes rt text) = Raise e ->
  e = TypeError \/ e = OverflowError.
Proof.
  rewrite decode_json_points_extract, decode_json_bboxes_extract.
  intros [H|H].
  - exact (extract_escapes _ (point_item_escapes rt) _ _ H).
  - exact (extract_escapes _ (bbox_item_escapes rt) _ _ H).
Qed.

Lemma only_two_exceptions_escape_witness :
  TypeError = TypeError \/ TypeError = OverflowError.
Proof.
  apply (only_two_exceptions_escape cpython (lit "[null]")).
  left. vm_compute. reflexivity.
Defined.

(** X3. In a run that returns, an accepted element that has a [label]
    is labelled with [str] of that value, whatever its type, never with
    a synthesized name: a string is kept as it is, [null] becomes
    [None], [true] becomes [True] and an integer its decimal numeral. *)
Theorem explicit_label_is_converted_with_str rt text :
  (forall pts lbls k d l,
     fst (decode_json_points rt text) = Ok (pts, lbls) ->
     nth_error (filter (Spec.accepts rt (lit "point_2d") 2)
                  (Spec.elements (fst (safe_json_load rt text)))) k
       = Some (PDict d) ->
     dict_get (lit "label") d = Some l ->
     nth_error lbls k = Some (py_str rt l))
  /\
  (forall boxes lbls k d l,
     fst (decode_json_bboxes rt text) = Ok (boxes, lbls) ->
     nth_error (filter (Spec.accepts rt (lit "bbox_2d") 4)
                  (Spec.elements (fst (safe_json_load rt text)))) k
       = Some (PDict d) ->
     dict_get (lit "label") d = Some l ->
     nth_error lbls k = Some (py_str rt l))
  /\
  (forall s n,
     py_str rt (PStr s) = s /\ py_str rt PNone = lit "None" /\
     py_str rt (PBool true) = lit "True" /\
     py_str rt (PInt (Z.of_N n)) = decimal_of_N n).
Proof.
  split; [|split].
  - intros pts lbls k d l H Hk Hl. rewrite decode_json_points_extract in H.
    destruct (Loops.extract_ok rt _ _ _ (point_item rt)
                (Loops.point_item_ok rt) _ _ _ H) as [_ ->].
    rewrite Loops.records_labels, (Loops.number_nth rt _ _ 0 k _ Hk).
    simpl. now rewrite Hl.
  - intros pts lbls k d l H Hk Hl. rewrite decode_json_bboxes_extract in H.
    destruct (Loops.extract_ok rt _ _ _ (bbox_item rt)
                (Loops.bbox_item_ok rt) _ _ _ H) as [_ ->].
    rewrite Loops.records_labels, (Loops.number_nth rt _ _ 0 k _ Hk).
    simpl. now rewrite Hl.
  - intros s n. repeat split. destruct n; reflexivity.
Qed.

Lemma explicit_label_is_converted_with_str_witness :
  nth_error [lit "None"] 0 = Some (py_str cpython PNone).
Proof.
  apply (proj1 (explicit_label_is_converted_with_str cpython
                  (lit "{" ++ q "point_2d" ++ lit ":[0.5,0.5], "
                   ++ q "label" ++ lit ": null}"))
           [[half; half]] _ 0
           [(lit "point_2d", PList [PFloat half; PFloat half]);
            (lit "label", PNone)] PNone); vm_compute; reflexivity.
Defined.

(** ** The quote repair *)

Lemma squotes_app a b : squotes (a ++ b) = squotes a + squotes b.
Proof. unfold squotes. now rewrite filter_app, length_app. Qed.

Lemma squotes_none s : has_squote s = false -> squotes s = 0.
Proof.
  unfold squotes, has_squote. induction s as [|c s IH]; simpl;
    [reflexivity|].
  intros H. apply orb_false_iff in H as [Hc Hs]. rewrite Hc. now apply IH.
Qed.

Lemma first_squote : forall s,
  has_squote s = true ->
  exists pre t, s = pre ++ squote :: t /\ has_squote pre = false.
Proof.
  induction s as [|c s IH]; simpl; [discriminate|].
  destruct (char_eqb c squote) eqn:Hc; simpl.
  - intros _. apply char_eqb_eq in Hc. subst c. now exists [], s.
  - intros H. destruct (IH H) as (pre & t & -> & Hp).
    exists (c :: pre), t. simpl. now rewrite Hc.
Qed.

Lemma quote_repair_prefix pre x :
  has_squote pre = false ->
  Re.sub quote_re quote_repl (pre ++ x)
  = pre ++ Re.sub quote_re quote_repl x.
Proof.
  intros Hpre. induction pre as [|c pre IH]; cbn [app]; [reflexivity|].
  simpl in Hpre. apply orb_false_iff in Hpre as [Hc Hpre].
  rewrite ReFacts.sub_skip by (apply quote_here_other; exact Hc).
  now rewrite IH.
Qed.

Lemma quote_repair_parity : forall n s,
  length s <= n ->
  squotes (Re.sub quote_re quote_repl s) = squotes s mod 2 /\
  Re.sub quote_re quote_repl (Re.sub quote_re quote_repl s)
  = Re.sub quote_re quote_repl s.
Proof.
  induction n as [|n IH]; intros s Hn.
  - destruct s; [|simpl in Hn; lia]. split; reflexivity.
  - destruct (has_squote s) eqn:Hs.
    2:{ rewrite !(ReFacts.sub_none _ _ _ (quote_search_none _ Hs)).
        now rewrite (squotes_none _ Hs). }
    apply first_squote in Hs as (pre & t & -> & Hpre).
    destruct (has_squote t) eqn:Ht.
    2:{ rewrite !(quote_repair_unpaired _ _ Hpre Ht).
        rewrite squotes_app, (squotes_none _ Hpre).
        change (squote :: t) with ([squote] ++ t).
        rewrite squotes_app, (squotes_none _ Ht). split; reflexivity. }
    apply first_squote in Ht as (body & rest & -> & Hbody).
    rewrite (quote_repair_eq _ _ rest Hpre Hbody).
    assert (Hr : length rest <= n).
    { rewrite !length_app in Hn. simpl in Hn. rewrite length_app in Hn.
      simpl in Hn. lia. }
    destruct (IH rest Hr) as [Hc Hi].
    assert (Hd : has_squote (pre ++ dquote :: body ++ [dquote]) = false).
    { rewrite has_squote_app, Hpre. simpl.
      rewrite has_squote_app, Hbody. reflexivity. }
    replace (pre ++ dquote :: body ++
             dquote :: Re.sub quote_re quote_repl rest)
      with ((pre ++ dquote :: body ++ [dquote]) ++
            Re.sub quote_re quote_repl rest)
      by (rewrite <- !app_assoc; simpl; now rewrite <- app_assoc).
    split.
    + rewrite squotes_app, (squotes_none _ Hd), Hc.
      rewrite squotes_app, (squotes_none _ Hpre).
      change (squote :: body ++ squote :: rest)
        with ([squote] ++ body ++ [squote] ++ rest).
      rewrite !squotes_app, (squotes_none _ Hbody).
      change (squotes [squote]) with 1.
      replace (0 + (1 + (0 + (1 + squotes rest))))
        with (squotes rest + 1 * 2) by lia.
      now rewrite Nat.Div0.mod_add.
    + now rewrite (quote_repair_prefix _ _ Hd), Hi.
Qed.

(** X4. After the quote repair at most one single quote is left, one
    exactly when the text had an odd number of them: every quote that
    has a partner is rewritten. Repairing a second time changes
    nothing. *)
Theorem quote_repair_pairs_all_quotes text :
  squotes (Re.sub quote_re quote_repl text) = squotes text mod 2 /\
  squotes (Re.sub quote_re quote_repl text) <= 1 /\
  Re.sub quote_re quote_repl (Re.sub quote_re quote_repl text)
  = Re.sub quote_re quote_repl text.
Proof.
  destruct (quote_repair_parity (length text) text (le_n _)) as [Hc Hi].
  repeat split; auto. rewrite Hc.
  pose proof (Nat.mod_upper_bound (squotes text) 2). lia.
Qed.

(** ** The fence *)

Lemma forallb_rev_eq (p : char -> bool) : forall l,
  forallb p (rev l) = forallb p l.
Proof.
  induction l as [|c l IH]; simpl; [reflexivity|].
  rewrite forallb_app, IH. simpl. rewrite andb_true_r. apply andb_comm.
Qed.

Lemma lstrip_split : forall s,
  exists l, s = l ++ lstrip s /\ forallb isspace l = true.
Proof.
  induction s as [|c s IH]; simpl.
  - now exists [].
  - destruct (isspace c) eqn:Hc.
    + destruct IH as (l & Hs & Hl). exists (c :: l). simpl.
      rewrite Hc, Hl. now rewrite <- Hs.
    + now exists [].
Qed.

Lemma lstrip_head s c t : lstrip s = c :: t -> isspace c = false.
Proof.
  induction s as [|x s IH]; simpl; [discriminate|].
  destruct (isspace x) eqn:Hx; [exact IH|].
  intros H. now injection H as <- _.
Qed.

Lemma lstrip_fixed c t : isspace c = false -> lstrip (c :: t) = c :: t.
Proof. intros H. simpl. now rewrite H. Qed.

(** [strip] cuts white space off both ends and nothing else. *)
Lemma strip_split s :
  exists l r, s = l ++ strip s ++ r
    /\ forallb isspace l = true /\ forallb isspace r = true.
Proof.
  unfold strip. destruct (lstrip_split s) as (l & Hs & Hl).
  destruct (lstrip_split (rev (lstrip s))) as (r' & Hr & Hr').
  exists l, (rev r'). repeat split; auto.
  - rewrite <- rev_app_distr, <- Hr, rev_involutive. exact Hs.
  - now rewrite forallb_rev_eq.
Qed.

Lemma strip_last s i z : strip s = i ++ [z] -> isspace z = false.
Proof.
  unfold strip. intros H.
  assert (Hr : lstrip (rev (lstrip s)) = z :: rev i).
  { rewrite <- (rev_involutive (lstrip (rev (lstrip s)))), H.
    now rewrite rev_app_distr. }
  now apply lstrip_head in Hr.
Qed.

Lemma strip_first s x t : strip s = x :: t -> isspace x = false.
Proof.
  intros H. destruct (lstrip_split (rev (lstrip s))) as (r' & Hr & Hr').
  assert (Ha : lstrip s = strip s ++ rev r').
  { unfold strip. rewrite <- rev_app_distr, <- Hr.
    now rewrite rev_involutive. }
  rewrite H in Ha. simpl in Ha. now apply lstrip_head in Ha.
Qed.

Lemma strip_strip s : strip (strip s) = strip s.
Proof.
  destruct (strip s) as [|x t] eqn:Hs; [reflexivity|].
  pose proof (strip_first _ _ _ Hs) as Hx.
  destruct (@exists_last _ (x :: t)) as (i & z & Hi); [discriminate|].
  rewrite Hi in Hs. pose proof (strip_last _ _ _ Hs) as Hz.
  unfold strip. rewrite (lstrip_fixed _ _ Hx), Hi, rev_app_distr.
  cbn [rev app]. rewrite (lstrip_fixed _ _ Hz).
  change (z :: rev i) with ([z] ++ rev i).
  now rewrite rev_app_distr, rev_involutive.
Qed.

Lemma has_backtick_app a b :
  has_backtick (a ++ b) = has_backtick a || has_backtick b.
Proof. apply existsb_app. Qed.

Lemma no_backtick_no_open c s :
  char_eqb c (ord "`") = false -> startswith fence_open (c :: s) = false.
Proof.
  intros H. unfold fence_open.
  change (lit "```json") with (ord "`" :: lit "``json").
  cbn [startswith]. unfold char_eqb in *. rewrite N.eqb_sym. now rewrite H.
Qed.

Lemma no_backtick_no_close c s :
  char_eqb c (ord "`") = false -> startswith fence_close (c :: s) = false.
Proof.
  intros H. unfold fence_close.
  change (lit "```") with (ord "`" :: lit "``").
  cbn [startswith]. unfold char_eqb in *. rewrite N.eqb_sym. now rewrite H.
Qed.

Lemma no_backtick_no_fence : forall s,
  has_backtick s = false -> has_fence s = false.
Proof.
  induction s as [|c s IH]; intros H; [reflexivity|].
  simpl in H. apply orb_false_iff in H as [Hc Hs].
  rewrite has_fence_eq. unfold fence_starts.
  rewrite (no_backtick_no_open _ _ Hc). now apply IH.
Qed.

Lemma fence_search_skip rest : forall pre,
  has_backtick pre = false ->
  Re.search fence_re (pre ++ rest) = Re.search fence_re rest.
Proof.
  induction pre as [|c pre IH]; intros H; [reflexivity|].
  simpl in H. apply orb_false_iff in H as [Hc Hp].
  cbn [app Re.search]. rewrite fence_here_eq.
  rewrite (no_backtick_no_open _ _ Hc). now apply IH.
Qed.

Lemma star_greedy_fails_in_class A cls s (k : str -> option A) :
  (forall w s', s = w ++ s' -> forallb cls w = true -> k s' = None) ->
  Re.star_greedy cls s k = None.
Proof.
  intros H. destruct (Re.star_greedy cls s k) as [a|] eqn:Hs; [|reflexivity].
  apply ReFacts.star_greedy_sound in Hs as (w & s' & Heq & Hw & Hk).
  rewrite (H w s' Heq Hw) in Hk. discriminate.
Qed.

(** A lazy star stops at the first place where the rest matches. *)
Lemma star_lazy_first A cls (k : str -> option A) s' a : forall w,
  forallb cls w = true ->
  (forall w1 w2, w = w1 ++ w2 -> w2 <> [] -> k (w2 ++ s') = None) ->
  k s' = Some a ->
  Re.star_lazy cls (w ++ s') k = Some a.
Proof.
  induction w as [|x w IH]; intros Hw Hmin Hk.
  - cbn [app]. destruct s'; simpl; now rewrite Hk.
  - simpl in Hw. apply andb_true_iff in Hw as [Hx Hw].
    pose proof (Hmin [] (x :: w) eq_refl) as H0. cbn [app] in *.
    cbn [Re.star_lazy]. rewrite H0 by discriminate.
    rewrite Hx. apply IH; auto.
    intros w1 w2 Heq Hn. apply (Hmin (x :: w1)); auto. simpl. now f_equal.
Qed.

Lemma fence_end_at_close s2 ws2 post :
  forallb isspace ws2 = true ->
  fence_end s2 (ws2 ++ fence_close ++ post)
  = Some {| Re.group1 :=
              firstn (length s2 - length (ws2 ++ fence_close ++ post)) s2;
            Re.after := post |}.
Proof.
  intros Hw. unfold fence_end.
  change (fence_close ++ post)
    with (ord "`" :: ord "`" :: ord "`" :: post).
  apply ReFacts.star_greedy_run; auto.
Qed.

(** Inside a content that has no backtick and ends with a character that
    is not white space, the rest of the fence pattern matches nowhere. *)
Lemma fence_end_inside s2 core tail w1 w2 :
  has_backtick core = false ->
  (forall i z, core = i ++ [z] -> isspace z = false) ->
  core = w1 ++ w2 -> w2 <> [] ->
  fence_end s2 (w2 ++ tail) = None.
Proof.
  intros Hb Hlast Heq Hn.
  destruct (@exists_last _ w2 Hn) as (w2' & z & ->).
  assert (Hz : isspace z = false).
  { apply (Hlast (w1 ++ w2')). now rewrite <- app_assoc. }
  assert (Hw2 : has_backtick (w2' ++ [z]) = false).
  { subst core. rewrite has_backtick_app in Hb.
    now apply orb_false_iff in Hb. }
  unfold fence_end. apply star_greedy_fails_in_class.
  intros a b Hsplit Ha. rewrite ReFacts.rmatch_Lit.
  assert (Hc : startswith fence_close b = false);
    [|now rewrite Hc].
  apply app_eq_app in Hsplit as [l [[Hl Hb'] | [Hl Hb']]].
  - destruct l as [|c l].
    + rewrite app_nil_r in Hl. subst a.
      rewrite forallb_app in Ha. simpl in Ha. rewrite Hz in Ha.
      rewrite andb_false_r in Ha. discriminate.
    + subst b. cbn [app]. apply no_backtick_no_close.
      rewrite Hl, has_backtick_app in Hw2.
      apply orb_false_iff in Hw2 as [_ Hw2]. simpl in Hw2.
      now apply orb_false_iff in Hw2.
  - subst a. rewrite !forallb_app in Ha. simpl in Ha. rewrite Hz in Ha.
    rewrite andb_false_r in Ha. discriminate.
Qed.

Lemma fence_lazy_group core r post :
  has_backtick core = false ->
  (forall i z, core = i ++ [z] -> isspace z = false) ->
  forallb isspace r = true ->
  Re.star_lazy Re.any (core ++ r ++ fence_close ++ post)
    (fence_end (core ++ r ++ fence_close ++ post))
  = Some {| Re.group1 := core; Re.after := post |}.
Proof.
  intros Hb Hlast Hr. apply star_lazy_first.
  - clear. induction core; simpl; auto.
  - intros w1 w2 Heq Hn. apply (fence_end_inside _ core _ w1 w2); auto.
  - rewrite (fence_end_at_close _ r post Hr). f_equal. f_equal.
    apply (firstn_consumed core (r ++ fence_close ++ post)).
Qed.

(** A block whose content has no backtick: the match at the opening
    fence captures the trimmed content. *)
Lemma fence_here_block body post :
  has_backtick body = false ->
  Re.match_here fence_re (fence_open ++ body ++ fence_close ++ post)
  = Some {| Re.group1 := strip body; Re.after := post |}.
Proof.
  intros Hb. rewrite fence_here_eq, startswith_app.
  change (skipn 7 (fence_open ++ body ++ fence_close ++ post))
    with (body ++ fence_close ++ post).
  destruct (strip_split body) as (l & r & Hbody & Hl & Hr).
  assert (Hcore : has_backtick (strip body) = false).
  { rewrite Hbody, !has_backtick_app in Hb.
    apply orb_false_iff in Hb as [_ Hb].
    now apply orb_false_iff in Hb. }
  pose proof (strip_last body) as Hlast.
  pose proof (strip_first body) as Hfirst.
  rewrite Hbody at 1. rewrite <- !app_assoc.
  destruct (strip body) as [|x core'].
  - cbn [app].
    replace (l ++ r ++ fence_close ++ post)
      with ((l ++ r) ++ ord "`" :: ord "`" :: ord "`" :: post)
      by now rewrite <- app_assoc.
    apply ReFacts.star_greedy_run.
    + rewrite forallb_app, Hl, Hr. reflexivity.
    + reflexivity.
    + apply (fence_lazy_group [] [] post); auto.
  - cbn [app]. apply ReFacts.star_greedy_run.
    + exact Hl.
    + apply (Hfirst x core'). reflexivity.
    + apply (fence_lazy_group (x :: core') r post); auto.
Qed.

(** X5. Prose around a fenced block is dropped: when neither the text
    before the opening fence nor the content of the block holds a
    backtick, the working text is the trimmed content, whatever follows
    the closing fence, and [safe_json_load] returns for the whole text
    what it returns for the trimmed content alone. So do both
    extractors. *)
Theorem prose_around_the_fence_is_dropped rt pre body post :
  has_backtick pre = false -> has_backtick body = false ->
  let text := pre ++ fence_open ++ body ++ fence_close ++ post in
  fenced text = strip body /\
  safe_json_load rt text = safe_json_load rt (strip body) /\
  decode_json_points rt text = decode_json_points rt (strip body) /\
  decode_json_bboxes rt text = decode_json_bboxes rt (strip body).
Proof.
  intros Hpre Hbody text.
  assert (Hf : fenced text = strip body).
  { unfold fenced, text. rewrite (fence_search_skip _ _ Hpre).
    assert (Hs : Re.search fence_re
                   (fence_open ++ body ++ fence_close ++ post)
                 = Some {| Re.group1 := strip body; Re.after := post |}).
    { change (fence_open ++ body ++ fence_close ++ post)
        with (ord "`" :: (lit "``json" ++ body ++ fence_close ++ post)).
      cbn [Re.search].
      change (ord "`" :: (lit "``json" ++ body ++ fence_close ++ post))
        with (fence_open ++ body ++ fence_close ++ post).
      now rewrite (fence_here_block body post Hbody). }
    rewrite Hs. cbn [Re.group1]. apply strip_strip. }
  assert (Hs : fenced (strip body) = strip body).
  { apply fenced_identity, no_backtick_no_fence.
    destruct (strip_split body) as (l & r & Hb & _ & _).
    rewrite Hb, !has_backtick_app in Hbody.
    apply orb_false_iff in Hbody as [_ Hbody].
    now apply orb_false_iff in Hbody. }
  assert (Hl : safe_json_load rt text = safe_json_load rt (strip body)).
  { unfold safe_json_load. now rewrite Hf, Hs. }
  unfold decode_json_points, decode_json_bboxes. rewrite Hl. auto.
Qed.

Lemma prose_around_the_fence_is_dropped_witness :
  decode_json_points cpython
    (lit "Sure, here: " ++ fence_open ++
     (newline ++ lit "{" ++ q "point_2d" ++ lit ": [0.1, 0.2]}" ++ newline)
     ++ fence_close ++ lit " Anything else?")
  = decode_json_points cpython
      (strip (newline ++ lit "{" ++ q "point_2d" ++ lit ": [0.1, 0.2]}"
              ++ newline)).
Proof.
  apply (prose_around_the_fence_is_dropped cpython); reflexivity.
Defined.

(** What was taken out of a fenced block holds no fenced block. *)
Lemma fenced_holds_no_fence text :
  has_fence text = true -> has_fence (fenced text) = false.
Proof.
  intros H.
  destruct (fenced_block text H)
    as (pre & ws1 & body & ws2 & post & _ & _ & _ & _ & Hmin & ->).
  destruct (has_fence (strip body)) eqn:Hf; [|reflexivity].
  destruct (fenced_block _ Hf)
    as (pre' & ws1' & body' & ws2' & post' & Heq & _).
  destruct (strip_split body) as (l & r & Hb & _ & _).
  rewrite Heq in Hb.
  specialize (Hmin (l ++ pre')
    (fence_open ++ (ws1' ++ body' ++ ws2' ++ fence_close ++ post') ++ r)).
  rewrite <- !app_assoc in Hmin. rewrite <- !app_assoc in Hb.
  specialize (Hmin Hb). simpl in Hmin.
  exfalso. enough (true = false) by discriminate. apply Hmin. discriminate.
Qed.

(** X6. The fence extraction is a projection: run on its own result it
    changes nothing, so [safe_json_load] and both extractors return for
    the text taken out of a fenced block what they return for the whole
    text. *)
Theorem fence_extraction_is_idempotent rt text :
  fenced (fenced text) = fenced text /\
  safe_json_load rt (fenced text) = safe_json_load rt text /\
  decode_json_points rt (fenced text) = decode_json_points rt text /\
  decode_json_bboxes rt (fenced text) = decode_json_bboxes rt text.
Proof.
  assert (Hf : fenced (fenced text) = fenced text).
  { destruct (has_fence text) eqn:H.
    - apply fenced_identity, fenced_holds_no_fence, H.
    - now rewrite !(fenced_identity _ H). }
  assert (Hl : safe_json_load rt (fenced text) = safe_json_load rt text).
  { unfold safe_json_load. now rewrite Hf. }
  unfold decode_json_points, decode_json_bboxes. rewrite Hl. auto.
Qed.

(** ** The plotting functions *)

Module PlotFacts.
Import Plots.

Lemma seq_assoc A B C (m : prog A) (f : A -> prog B) (k : B -> prog C) h :
  seq (seq m f) k h = seq m (fun a => seq (f a) k) h.
Proof. unfold seq. destruct (m h) as [h' [a|r]]; reflexivity. Qed.

Lemma seq_call world B (e : event) (f : unit -> prog B) h :
  seq (call world e) f h = after_calls world [e] (f tt) h.
Proof. unfold seq, call. cbn [after_calls]. now destruct (world h e). Qed.

Lemma seq_index A B (l : list A) i a (f : A -> prog B) h :
  nth_error l i = Some a -> seq (index l i) f h = f a h.
Proof. unfold index. now intros ->. Qed.

Lemma seq_modulo B i n (f : nat -> prog B) h :
  n <> 0 -> seq (modulo i n) f h = f (i mod n) h.
Proof. destruct n; [contradiction | reflexivity]. Qed.

Lemma seq_float_op B op x n fn (f : float -> prog B) h :
  float_of_int n = Ok fn -> seq (float_op_int op x n) f h = f (op x fn) h.
Proof. unfold float_op_int. now intros ->. Qed.

Lemma seq_float_overflow B op x n (f : float -> prog B) h :
  converts n = false ->
  seq (float_op_int op x n) f h = (h, Failed (Escaped OverflowError)).
Proof.
  unfold converts, float_op_int. destruct (float_of_int n) eqn:H;
    [discriminate|]. apply Loops.float_of_int_raise in H. now subst.
Qed.

Lemma converts_ok n : converts n = true -> exists f, float_of_int n = Ok f.
Proof.
  unfold converts. destruct (float_of_int n) as [f|]; [eauto | discriminate].
Qed.

Lemma converts_true n f : float_of_int n = Ok f -> converts n = true.
Proof. unfold converts. now intros ->. Qed.

Lemma colors_length extra : length (colors extra) = S (22 + length extra).
Proof. unfold colors. now rewrite length_app. Qed.

Lemma colors_not_empty extra : length (colors extra) <> 0.
Proof. rewrite colors_length. discriminate. Qed.

(** The colour of a record is found: the index is within the list. *)
Lemma color_found extra i :
  nth_error (colors extra) (i mod length (colors extra))
  = Some (colour extra i).
Proof.
  unfold colour. apply nth_error_nth'.
  apply Nat.mod_upper_bound, colors_not_empty.
Qed.

Lemma after_calls_app A world (k : prog A) b : forall a h,
  after_calls world (a ++ b) k h
  = after_calls world a (after_calls world b k) h.
Proof.
  induction a as [|e a IH]; intros h; cbn [app after_calls]; [reflexivity|].
  destruct (world h e); [apply IH | reflexivity].
Qed.

Lemma after_calls_ext A world (k1 k2 : prog A) :
  (forall h, k1 h = k2 h) ->
  forall cs h, after_calls world cs k1 h = after_calls world cs k2 h.
Proof.
  intros H. induction cs as [|e cs IH]; intros h; cbn [after_calls]; auto.
  destruct (world h e); auto.
Qed.

Lemma after_calls_all A world (k : prog A) : forall cs h,
  (forall h' e, In e cs -> world h' e = true) ->
  after_calls world cs k h = k (h ++ cs).
Proof.
  induction cs as [|e cs IH]; intros h H; cbn [after_calls].
  - now rewrite app_nil_r.
  - rewrite (H h e) by now left. rewrite IH.
    + now rewrite <- app_assoc.
    + intros h' e' Hin. apply H. now right.
Qed.

Lemma after_calls_quiet A (k : prog A) cs h :
  after_calls quiet cs k h = k (h ++ cs).
Proof. now apply after_calls_all. Qed.

Lemma play_quiet cs final : play quiet cs final = (cs, final).
Proof. unfold play. now rewrite after_calls_quiet. Qed.

(** A run of calls fails only where a call raises. *)
Lemma after_calls_failed world (final : outcome unit) :
  forall cs h0 t r,
  after_calls world cs (fun h => (h, final)) h0 = (t, Failed r) ->
  final = Failed r /\ t = h0 ++ cs
  \/ exists h e, t = h ++ [e] /\ r = Outside e /\ In e cs
                 /\ world h e = false.
Proof.
  induction cs as [|e cs IH]; intros h0 t r H; cbn [after_calls] in H.
  - left. injection H as <- ->. now rewrite app_nil_r.
  - destruct (world h0 e) eqn:Hw.
    + destruct (IH _ _ _ H) as [[Hf ->] | (h & e' & -> & -> & Hin & Hr)].
      * left. split; [exact Hf|]. now rewrite <- app_assoc.
      * right. exists h, e'. repeat split; auto. now right.
    + right. injection H as <- <-. exists h0, e. repeat split; auto.
      now left.
Qed.

Lemma seq_calls world B (f : unit -> prog B) : forall es h,
  seq (calls world es) f h = after_calls world es (f tt) h.
Proof.
  induction es as [|e es IH]; intros h; [reflexivity|].
  cbn [calls]. rewrite seq_assoc, seq_call. cbn [after_calls].
  destruct (world h e); [apply IH | reflexivity].
Qed.

Lemma small_ints :
  float_of_int 2 = Ok (of_int 2) /\ float_of_int 20 = Ok (of_int 20) /\
  float_of_int 6 = Ok (of_int 6) /\ float_of_int 15 = Ok (of_int 15) /\
  float_of_int 5 = Ok (of_int 5).
Proof. repeat split; vm_compute; reflexivity. Qed.

Tactic Notation "step" uconstr(lem) :=
  rewrite seq_assoc; rewrite lem; cbv beta zeta.

(** One turn of the loop of [plot_points] on a pair: the ellipse, then
    the description. *)
Lemma point_mark_run world extra img descs i p d fw fh
    B (k : unit -> prog B) h :
  float_of_int (width img) = Ok fw -> float_of_int (height img) = Ok fh ->
  length p = 2 -> nth_error descs i = Some d ->
  seq (point_mark world extra img descs i p) k h
  = after_calls world (point_call extra fw fh i p d) (k tt) h.
Proof.
  intros Hw Hh Hp Hd. destruct p as [|x [|y [|z p]]]; try discriminate.
  destruct small_ints as (H2 & H20 & H6 & _ & _).
  unfold point_mark, mul, sub, add.
  step seq_modulo; [|apply colors_not_empty].
  step (seq_index str _ _ _ _ _ h (color_found extra i)).
  step (seq_index float _ [x; y] 0 x); [|reflexivity].
  step (seq_float_op _ _ _ _ _ _ h Hw).
  step (seq_index float _ [x; y] 1 y); [|reflexivity].
  step (seq_float_op _ _ _ _ _ _ h Hh).
  do 4 step (seq_float_op _ _ _ _ _ _ h H2).
  rewrite seq_assoc, seq_call.
  unfold point_call. cbn [after_calls]. destruct (world h _); [|reflexivity].
  step (seq_float_op _ _ _ _ _ _ (h ++ [_]) H20).
  step (seq_float_op _ _ _ _ _ _ (h ++ [_]) H6).
  step (seq_index str _ _ _ _ _ (h ++ [_]) Hd).
  now rewrite seq_call.
Qed.

Lemma point_mark_overflow world extra img descs i p
    B (k : unit -> prog B) h :
  converts (width img) && converts (height img) = false ->
  length p = 2 ->
  seq (point_mark world extra img descs i p) k h
  = (h, Failed (Escaped OverflowError)).
Proof.
  intros H Hp. destruct p as [|x [|y [|z p]]]; try discriminate.
  unfold point_mark, mul.
  step seq_modulo; [|apply colors_not_empty].
  step (seq_index str _ _ _ _ _ h (color_found extra i)).
  step (seq_index float _ [x; y] 0 x); [|reflexivity].
  destruct (converts (width img)) eqn:Hw.
  - apply converts_ok in Hw as [fw Hw].
    step (seq_float_op _ _ _ _ _ _ h Hw).
    step (seq_index float _ [x; y] 1 y); [|reflexivity].
    rewrite seq_assoc. now apply seq_float_overflow.
  - rewrite seq_assoc. now apply seq_float_overflow.
Qed.

(** One turn of the loop of [plot_bboxes] on four coordinates: the
    rectangle, then the description. *)
Lemma bbox_mark_run world extra img descs i p d fw fh
    B (k : unit -> prog B) h :
  float_of_int (width img) = Ok fw -> float_of_int (height img) = Ok fh ->
  length p = 4 -> nth_error descs i = Some d ->
  seq (bbox_mark world extra img descs i p) k h
  = after_calls world (bbox_call extra fw fh i p d) (k tt) h.
Proof.
  intros Hw Hh Hp Hd.
  destruct p as [|a [|b [|c [|e [|z p]]]]]; try discriminate.
  destruct small_ints as (_ & _ & _ & H15 & H5).
  unfold bbox_mark, mul, sub, add.
  step seq_modulo; [|apply colors_not_empty].
  step (seq_index str _ _ _ _ _ h (color_found extra i)).
  rewrite seq_assoc. unfold unpack4. unfold seq at 1, ret at 1.
  cbv beta iota zeta.
  step (seq_float_op _ _ _ _ _ _ h Hw).
  step (seq_float_op _ _ _ _ _ _ h Hh).
  step (seq_float_op _ _ _ _ _ _ h Hw).
  step (seq_float_op _ _ _ _ _ _ h Hh).
  rewrite seq_assoc, seq_call.
  unfold bbox_call. cbn [after_calls]. destruct (world h _); [|reflexivity].
  unfold gt. fold (of_int 15).
  destruct (SFltb (of_int 15) _).
  - step (seq_float_op _ _ _ _ _ _ (h ++ [_]) H15).
    step (seq_index str _ _ _ _ _ (h ++ [_]) Hd).
    now rewrite seq_call.
  - step (seq_float_op _ _ _ _ _ _ (h ++ [_]) H5).
    step (seq_index str _ _ _ _ _ (h ++ [_]) Hd).
    now rewrite seq_call.
Qed.

Lemma bbox_mark_overflow world extra img descs i p
    B (k : unit -> prog B) h :
  converts (width img) && converts (height img) = false ->
  length p = 4 ->
  seq (bbox_mark world extra img descs i p) k h
  = (h, Failed (Escaped OverflowError)).
Proof.
  intros H Hp.
  destruct p as [|a [|b [|c [|e [|z p]]]]]; try discriminate.
  unfold bbox_mark, mul.
  step seq_modulo; [|apply colors_not_empty].
  step (seq_index str _ _ _ _ _ h (color_found extra i)).
  rewrite seq_assoc. unfold unpack4. unfold seq at 1, ret at 1.
  cbv beta iota zeta.
  destruct (converts (width img)) eqn:Hw.
  - apply converts_ok in Hw as [fw Hw].
    step (seq_float_op _ _ _ _ _ _ h Hw).
    rewrite seq_assoc. now apply seq_float_overflow.
  - rewrite seq_assoc. now apply seq_float_overflow.
Qed.

Lemma skipn_nth A (l : list A) : forall i d,
  nth_error l i = Some d -> skipn i l = d :: skipn (S i) l.
Proof.
  induction l as [|a l IH]; intros [|i] d H; try discriminate.
  - now injection H as ->.
  - cbn [nth_error] in H. cbn [skipn]. now apply IH.
Qed.

(** The loop, when every turn makes the calls of its record. *)
Section Loop.
Variable world : outside.
Variable body : nat -> list float -> prog unit.
Variable one : nat -> list float -> str -> list event.
Variable good : list float -> Prop.
Variable descs : list str.

Hypothesis body_run : forall i item d B (k : unit -> prog B) h,
  good item -> nth_error descs i = Some d ->
  seq (body i item) k h = after_calls world (one i item d) (k tt) h.

Lemma for_enumerate_run : forall items i B (k : unit -> prog B) h,
  Forall good items -> i + length items <= length descs ->
  seq (for_enumerate i items body) k h
  = after_calls world (record_calls one i items (skipn i descs)) (k tt) h.
Proof.
  induction items as [|item rest IH]; intros i B k h Hg Hl.
  - reflexivity.
  - pose proof (Forall_inv Hg) as Hitem.
    pose proof (Forall_inv_tail Hg) as Hrest. cbn [length] in Hl.
    destruct (nth_error descs i) as [d|] eqn:Hd.
    2:{ apply nth_error_None in Hd. lia. }
    cbn [for_enumerate]. rewrite seq_assoc, (body_run i item d) by auto.
    rewrite (skipn_nth _ descs i d Hd). cbn [record_calls].
    rewrite after_calls_app. apply after_calls_ext.
    intros h'. apply IH; [exact Hrest | lia].
Qed.

End Loop.

Lemma for_enumerate_fails A (body : nat -> A -> prog unit) i item rest r
    B (k : unit -> prog B) h :
  (forall C (k' : unit -> prog C) h', seq (body i item) k' h' = (h', Failed r)) ->
  seq (for_enumerate i (item :: rest) body) k h = (h, Failed r).
Proof. intros H. cbn [for_enumerate]. now rewrite seq_assoc, H. Qed.

Lemma printed_errors_draw_nothing out :
  shape_colors (map PrintError out) = [] /\
  labels_drawn (map PrintError out) = [] /\
  displays (map PrintError out) = 0.
Proof. induction out as [|e out (H1 & H2 & H3)]; repeat split; assumption. Qed.

Lemma plot_points_with world rt extra img text :
  plot_points_in world rt extra img text
  = plot_with world (decode_json_points rt text) (lit "Parsed points: ")
      (point_mark world extra img).
Proof. reflexivity. Qed.

Lemma plot_bboxes_with world rt extra img text :
  plot_bboxes_in world rt extra img text
  = plot_with world (decode_json_bboxes rt text) (lit "Parsed bboxes: ")
      (bbox_mark world extra img).
Proof. reflexivity. Qed.

(** A run of a plotting function, by what the extractor did. *)
Section Plot.
Variable world : outside.
Variable title : str.
Variable arity : nat.
Variable mark : list str -> nat -> list float -> prog unit.

Lemma plot_with_raises e out :
  plot_with world (Raise e, out) title mark
  = play world (map PrintError out) (Failed (Escaped e)).
Proof. unfold plot_with, play. now rewrite seq_calls. Qed.

Lemma plot_with_ok recs lbls out :
  plot_with world (Ok (recs, lbls), out) title mark
  = after_calls world
      (map PrintError out
       ++ [PrintRecords title recs; PrintDescriptions lbls])
      (match recs with
       | [] => call world Display
       | _ :: _ =>
           seq (for_enumerate 0 recs (mark lbls))
             (fun _ => call world Display)
       end) [].
Proof.
  unfold plot_with. rewrite seq_calls, after_calls_app.
  apply after_calls_ext. intros h.
  unfold lift. unfold seq at 1, ret at 1. cbv beta iota.
  rewrite seq_call. cbn [after_calls].
  destruct (world h _); [|reflexivity].
  rewrite seq_call. reflexivity.
Qed.

Lemma plot_with_empty lbls out :
  plot_with world (Ok ([], lbls), out) title mark
  = play world
      (map PrintError out
       ++ [PrintRecords title []; PrintDescriptions lbls] ++ [Display])
      (Returned tt).
Proof.
  rewrite plot_with_ok. unfold play.
  rewrite app_assoc, (after_calls_app _ _ _ [Display]).
  apply after_calls_ext. intros h. reflexivity.
Qed.

Lemma plot_with_returns one recs lbls out :
  (forall descs i p d B (k : unit -> prog B) h,
     length p = arity -> nth_error descs i = Some d ->
     seq (mark descs i p) k h = after_calls world (one i p d) (k tt) h) ->
  Forall (fun p => length p = arity) recs -> length lbls = length recs ->
  plot_with world (Ok (recs, lbls), out) title mark
  = play world
      (map PrintError out
       ++ [PrintRecords title recs; PrintDescriptions lbls]
       ++ record_calls one 0 recs lbls ++ [Display])
      (Returned tt).
Proof.
  intros Hmark Har Hlen. destruct recs as [|p recs'] eqn:Hrecs.
  - destruct lbls; [|discriminate]. apply plot_with_empty.
  - rewrite plot_with_ok. unfold play.
    rewrite (app_assoc (map PrintError out)).
    rewrite (after_calls_app _ _ _
               (record_calls one 0 (p :: recs') lbls ++ [Display])).
    apply after_calls_ext. intros h.
    rewrite (for_enumerate_run world (mark lbls) one
               (fun p => length p = arity) lbls (Hmark lbls)); auto.
    + cbn [skipn]. rewrite after_calls_app.
      apply after_calls_ext. intros h'. reflexivity.
    + rewrite Hlen. cbn [plus]. auto.
Qed.

Lemma plot_with_overflow p recs lbls out :
  (forall descs i p B (k : unit -> prog B) h,
     length p = arity ->
     seq (mark descs i p) k h = (h, Failed (Escaped OverflowError))) ->
  Forall (fun p => length p = arity) (p :: recs) ->
  plot_with world (Ok (p :: recs, lbls), out) title mark
  = play world
      (map PrintError out
       ++ [PrintRecords title (p :: recs); PrintDescriptions lbls])
      (Failed (Escaped OverflowError)).
Proof.
  intros Hmark Har. pose proof (Forall_inv Har) as Hp. cbv beta in Hp.
  rewrite plot_with_ok. unfold play.
  apply after_calls_ext. intros h.
  apply for_enumerate_fails. intros C k' h'. now apply Hmark.
Qed.

End Plot.

(** What the calls of the records draw. *)
Lemma record_calls_drawn extra arity
    (one : nat -> list float -> str -> list event) :
  (forall i p d, length p = arity ->
     shape_colors (one i p d) = [colour extra i]
     /\ labels_drawn (one i p d) = [(d, colour extra i)]
     /\ displays (one i p d) = 0) ->
  forall recs lbls i,
    Forall (fun p => length p = arity) recs -> length lbls = length recs ->
    shape_colors (record_calls one i recs lbls)
    = map (colour extra) (List.seq i (length recs))
    /\ labels_drawn (record_calls one i recs lbls)
       = combine lbls (map (colour extra) (List.seq i (length recs)))
    /\ displays (record_calls one i recs lbls) = 0.
Proof.
  intros Hone. induction recs as [|p recs IH]; intros lbls i Har Hlen.
  - destruct lbls; [|discriminate]. repeat split.
  - destruct lbls as [|d lbls]; [discriminate|].
    pose proof (Forall_inv Har) as Hp. cbv beta in Hp.
    destruct (Hone i p d Hp) as (H1 & H2 & H3).
    destruct (IH lbls (S i) (Forall_inv_tail Har)) as (I1 & I2 & I3).
    { simpl in Hlen. lia. }
    cbn [record_calls length List.seq map combine].
    unfold shape_colors, labels_drawn, displays in *.
    rewrite !flat_map_app, filter_app, length_app, H1, H2, H3, I1, I2, I3.
    repeat split.
Qed.

Lemma point_call_drawn extra fw fh i p d :
  length p = 2 ->
  shape_colors (point_call extra fw fh i p d) = [colour extra i]
  /\ labels_drawn (point_call extra fw fh i p d) = [(d, colour extra i)]
  /\ displays (point_call extra fw fh i p d) = 0.
Proof.
  intros Hp. destruct p as [|x [|y [|z p]]]; try discriminate.
  repeat split.
Qed.

Lemma bbox_call_drawn extra fw fh i p d :
  length p = 4 ->
  shape_colors (bbox_call extra fw fh i p d) = [colour extra i]
  /\ labels_drawn (bbox_call extra fw fh i p d) = [(d, colour extra i)]
  /\ displays (bbox_call extra fw fh i p d) = 0.
Proof.
  intros Hp. destruct p as [|a [|b [|c [|e [|z p]]]]]; try discriminate.
  repeat split.
Qed.

(** What the plotting functions rely on: the records an extractor
    returns have the arity of their kind, one description each. *)
Lemma decoded_points rt text pts lbls :
  fst (decode_json_points rt text) = Ok (pts, lbls) ->
  Forall (fun p => length p = 2) pts /\ length lbls = length pts.
Proof.
  intros H. rewrite decode_json_points_extract in H.
  destruct (Loops.extract_ok rt _ _ _ (point_item rt)
              (Loops.point_item_ok rt) _ _ _ H) as [-> ->].
  split.
  - rewrite Loops.records_coords. apply coords_of_arity.
  - now rewrite !length_map.
Qed.

Lemma decoded_bboxes rt text boxes lbls :
  fst (decode_json_bboxes rt text) = Ok (boxes, lbls) ->
  Forall (fun p => length p = 4) boxes /\ length lbls = length boxes.
Proof.
  intros H. rewrite decode_json_bboxes_extract in H.
  destruct (Loops.extract_ok rt _ _ _ (bbox_item rt)
              (Loops.bbox_item_ok rt) _ _ _ H) as [-> ->].
  split.
  - rewrite Loops.records_coords. apply coords_of_arity.
  - now rewrite !length_map.
Qed.

(** The runs in which every call returns, by how they end. *)
Section Runs.
Variable extra : list str.
Variable img : image.
Variable title : str.
Variable arity : nat.
Variable mark : list str -> nat -> list float -> prog unit.
Variable one : float -> float -> nat -> list float -> str -> list event.
Variable decoded : result (list (list float) * list str) * list exn.

Hypothesis mark_run : forall fw fh descs i p d B (k : unit -> prog B) h,
  float_of_int (width img) = Ok fw -> float_of_int (height img) = Ok fh ->
  length p = arity -> nth_error descs i = Some d ->
  seq (mark descs i p) k h = after_calls quiet (one fw fh i p d) (k tt) h.

Hypothesis mark_overflow : forall descs i p B (k : unit -> prog B) h,
  converts (width img) && converts (height img) = false ->
  length p = arity ->
  seq (mark descs i p) k h = (h, Failed (Escaped OverflowError)).

Hypothesis one_drawn : forall fw fh i p d,
  length p = arity ->
  shape_colors (one fw fh i p d) = [colour extra i]
  /\ labels_drawn (one fw fh i p d) = [(d, colour extra i)]
  /\ displays (one fw fh i p d) = 0.

Hypothesis decoded_ok : forall recs lbls,
  fst decoded = Ok (recs, lbls) ->
  Forall (fun p => length p = arity) recs /\ length lbls = length recs.

Hypothesis decoded_escapes : forall e, fst decoded = Raise e -> escapes e.

(** How a run goes: the extractor raised; or it returned and the marks
    were drawn; or it returned records and the size of the image is out
    of range. *)
Lemma run_cases :
  (exists e out, escapes e /\
     plot_with quiet decoded title mark
     = (map PrintError out, Failed (Escaped e)))
  \/
  (exists recs lbls out drawn,
     plot_with quiet decoded title mark
     = (map PrintError out
        ++ [PrintRecords title recs; PrintDescriptions lbls]
        ++ drawn ++ [Display], Returned tt)
     /\ shape_colors drawn = map (colour extra) (List.seq 0 (length recs)))
  \/
  (exists recs lbls out,
     plot_with quiet decoded title mark
     = (map PrintError out
        ++ [PrintRecords title recs; PrintDescriptions lbls],
        Failed (Escaped OverflowError))).
Proof.
  destruct decoded as [[[recs lbls]|e] out] eqn:Hd; cbn [fst] in *.
  - destruct (decoded_ok recs lbls eq_refl) as [Har Hlen].
    destruct recs as [|p recs].
    + right; left. exists [], lbls, out, [].
      rewrite plot_with_empty, play_quiet. now split.
    + destruct (converts (width img)) eqn:Hw;
        [destruct (converts (height img)) eqn:Hh|].
      * apply converts_ok in Hw as [fw Hw].
        apply converts_ok in Hh as [fh Hh].
        right; left.
        exists (p :: recs), lbls, out,
          (record_calls (one fw fh) 0 (p :: recs) lbls).
        rewrite (plot_with_returns quiet title arity mark (one fw fh))
          by (auto; intros; now apply mark_run).
        rewrite play_quiet. split; [reflexivity|].
        now apply (record_calls_drawn extra arity (one fw fh)
                     (one_drawn fw fh)).
      * right; right. exists (p :: recs), lbls, out.
        rewrite (plot_with_overflow quiet title arity mark) by
          (auto; intros; apply mark_overflow; auto;
           now rewrite Hw, Hh).
        now rewrite play_quiet.
      * right; right. exists (p :: recs), lbls, out.
        rewrite (plot_with_overflow quiet title arity mark) by
          (auto; intros; apply mark_overflow; auto; now rewrite Hw).
        now rewrite play_quiet.
  - left. exists e, out. split; [now apply decoded_escapes|].
    now rewrite plot_with_raises, play_quiet.
Qed.

Lemma failed_run t r :
  plot_with quiet decoded title mark = (t, Failed r) ->
  (r = Escaped TypeError \/ r = Escaped OverflowError)
  /\ shape_colors t = [] /\ labels_drawn t = [] /\ displays t = 0.
Proof.
  destruct run_cases
    as [(e & out & He & ->) | [(recs & lbls & out & drawn & -> & _)
        | (recs & lbls & out & ->)]]; intros H.
  - injection H as <- <-.
    destruct (printed_errors_draw_nothing out) as (H1 & H2 & H3).
    repeat split; auto. destruct He as [-> | ->]; auto.
  - discriminate.
  - injection H as <- <-.
    destruct (printed_errors_draw_nothing out) as (H1 & H2 & H3).
    unfold shape_colors, labels_drawn, displays in *.
    rewrite !flat_map_app, filter_app, length_app, H1, H2, H3.
    repeat split. now right.
Qed.

Lemma returned_run t :
  plot_with quiet decoded title mark = (t, Returned tt) ->
  exists n, shape_colors t = map (colour extra) (List.seq 0 n).
Proof.
  destruct run_cases
    as [(e & out & He & ->) | [(recs & lbls & out & drawn & -> & Hs)
        | (recs & lbls & out & ->)]]; intros H; try discriminate.
  injection H as <-. exists (length recs).
  destruct (printed_errors_draw_nothing out) as (H1 & _).
  unfold shape_colors in *.
  rewrite flat_map_app, H1. cbn [flat_map app].
  rewrite flat_map_app, Hs. cbn [flat_map app].
  now rewrite app_nil_r.
Qed.

End Runs.

Lemma colour_small extra i : i < 23 -> colour extra i = nth i palette [].
Proof.
  intros H. unfold colour. rewrite colors_length.
  rewrite Nat.mod_small by lia. unfold colors.
  apply app_nth1. exact H.
Qed.

Lemma first_colours extra n :
  n <= 23 -> map (colour extra) (List.seq 0 n) = firstn n palette.
Proof.
  intros H.
  rewrite (map_ext_in (colour extra) (fun i => nth i palette [])).
  - do 24 (destruct n as [|n]; [reflexivity|]). lia.
  - intros i Hi. apply in_seq in Hi. apply colour_small. lia.
Qed.

Lemma palette_distinct : NoDup palette.
Proof.
  unfold palette.
  repeat (constructor; [vm_compute; intuition discriminate|]).
  constructor.
Qed.

End PlotFacts.

(** X7. [plot_points] marks every point it was given. Whenever
    [decode_json_points] returns and the image size is within the range
    of a double, every point has two coordinates and a description, and
    the run of [plot_points] is this list of calls, in this order, cut
    where a call to the outside raises: the prints of the parse errors,
    of the points and of the descriptions; for each point in turn
    [draw.ellipse] on the box of radius 2 around the scaled point, filled
    with the colour of its position, and [draw.text] of its description
    20 to the left and 6 below, in the same colour; then [display],
    once. If each of these calls returns, [plot_points] returns after
    making them all. If it raises, the exception is that of the call
    made last: none of its own indexing or arithmetic fails. *)
Theorem plot_points_marks_every_point world rt extra img text pts lbls
    fw fh :
  fst (decode_json_points rt text) = Ok (pts, lbls) ->
  float_of_int (Plots.width img) = Ok fw ->
  float_of_int (Plots.height img) = Ok fh ->
  let calls :=
    map Plots.PrintError (snd (decode_json_points rt text))
    ++ [Plots.PrintRecords (lit "Parsed points: ") pts;
        Plots.PrintDescriptions lbls]
    ++ record_calls (point_call extra fw fh) 0 pts lbls
    ++ [Plots.Display] in
  Forall (fun p => length p = 2) pts /\ length lbls = length pts
  /\ Plots.plot_points_in world rt extra img text
     = play world calls (Plots.Returned tt)
  /\ ((forall h e, In e calls -> world h e = true) ->
      Plots.plot_points_in world rt extra img text
      = (calls, Plots.Returned tt))
  /\ (forall t r,
        Plots.plot_points_in world rt extra img text
        = (t, Plots.Failed r) ->
        exists h e, t = h ++ [e] /\ r = Plots.Outside e /\ In e calls
                    /\ world h e = false).
Proof.
  intros H Hw Hh calls.
  destruct (PlotFacts.decoded_points rt text pts lbls H) as [Har Hlen].
  assert (Hrun : Plots.plot_points_in world rt extra img text
                 = play world calls (Plots.Returned tt)).
  { rewrite PlotFacts.plot_points_with. subst calls.
    destruct (decode_json_points rt text) as [r out]. cbn [fst snd] in *.
    subst r.
    apply (PlotFacts.plot_with_returns world _ 2 _
             (point_call extra fw fh)); auto.
    intros descs i p d B k h Hp Hd.
    now apply PlotFacts.point_mark_run. }
  repeat split; auto.
  - intros Hall. rewrite Hrun. unfold play.
    now rewrite PlotFacts.after_calls_all.
  - intros t r Hf. rewrite Hrun in Hf. unfold play in Hf.
    apply PlotFacts.after_calls_failed in Hf
      as [[Hf _] | (h & e & -> & -> & Hin & Hr)]; [discriminate|].
    now exists h, e.
Qed.

Lemma plot_points_marks_every_point_witness :
  Plots.plot_points_in Plots.quiet cpython []
    {| Plots.width := 640; Plots.height := 480 |}
    (lit "[{" ++ q "point_2d" ++ lit ":[0.5,0.5]}]")
  = play Plots.quiet
      (map Plots.PrintError
         (snd (decode_json_points cpython
                 (lit "[{" ++ q "point_2d" ++ lit ":[0.5,0.5]}]")))
       ++ [Plots.PrintRecords (lit "Parsed points: ") [[half; half]];
           Plots.PrintDescriptions [lit "point_1"]]
       ++ record_calls (point_call [] (of_int 640) (of_int 480)) 0
            [[half; half]] [lit "point_1"]
       ++ [Plots.Display])
      (Plots.Returned tt).
Proof.
  refine (proj1 (proj2 (proj2
    (plot_points_marks_every_point Plots.quiet cpython []
       {| Plots.width := 640; Plots.height := 480 |}
       (lit "[{" ++ q "point_2d" ++ lit ":[0.5,0.5]}]")
       [[half; half]] [lit "point_1"] (of_int 640) (of_int 480)
       _ _ _)))); vm_compute; reflexivity.
Defined.

(** X8. [plot_bboxes] marks every box it was given. Whenever
    [decode_json_bboxes] returns and the image size is within the range
    of a double, every box has four coordinates and a description, and
    the run of [plot_bboxes] is this list of calls, in this order, cut
    where a call to the outside raises: the prints of the parse errors,
    of the boxes and of the descriptions; for each box in turn
    [draw.rectangle] between the scaled corners, outlined in the colour
    of its position with line width 2, and [draw.text] of its
    description at the left edge, 15 above the upper edge if that is
    more than 15 from the top and 5 below it otherwise, in the same
    colour; then [display], once. If each of these calls returns,
    [plot_bboxes] returns after making them all. If it raises, the
    exception is that of the call made last: neither the unpacking of a
    box nor the indexing or arithmetic fails. *)
Theorem plot_bboxes_marks_every_box world rt extra img text boxes lbls
    fw fh :
  fst (decode_json_bboxes rt text) = Ok (boxes, lbls) ->
  float_of_int (Plots.width img) = Ok fw ->
  float_of_int (Plots.height img) = Ok fh ->
  let calls :=
    map Plots.PrintError (snd (decode_json_bboxes rt text))
    ++ [Plots.PrintRecords (lit "Parsed bboxes: ") boxes;
        Plots.PrintDescriptions lbls]
    ++ record_calls (bbox_call extra fw fh) 0 boxes lbls
    ++ [Plots.Display] in
  Forall (fun b => length b = 4) boxes /\ length lbls = length boxes
  /\ Plots.plot_bboxes_in world rt extra img text
     = play world calls (Plots.Returned tt)
  /\ ((forall h e, In e calls -> world h e = true) ->
      Plots.plot_bboxes_in world rt extra img text
      = (calls, Plots.Returned tt))
  /\ (forall t r,
        Plots.plot_bboxes_in world rt extra img text
        = (t, Plots.Failed r) ->
        exists h e, t = h ++ [e] /\ r = Plots.Outside e /\ In e calls
                    /\ world h e = false).
Proof.
  intros H Hw Hh calls.
  destruct (PlotFacts.decoded_bboxes rt text boxes lbls H) as [Har Hlen].
  assert (Hrun : Plots.plot_bboxes_in world rt extra img text
                 = play world calls (Plots.Returned tt)).
  { rewrite PlotFacts.plot_bboxes_with. subst calls.
    destruct (decode_json_bboxes rt text) as [r out]. cbn [fst snd] in *.
    subst r.
    apply (PlotFacts.plot_with_returns world _ 4 _
             (bbox_call extra fw fh)); auto.
    intros descs i p d B k h Hp Hd.
    now apply PlotFacts.bbox_mark_run. }
  repeat split; auto.
  - intros Hall. rewrite Hrun. unfold play.
    now rewrite PlotFacts.after_calls_all.
  - intros t r Hf. rewrite Hrun in Hf. unfold play in Hf.
    apply PlotFacts.after_calls_failed in Hf
      as [[Hf _] | (h & e & -> & -> & Hin & Hr)]; [discriminate|].
    now exists h, e.
Qed.

Lemma plot_bboxes_marks_every_box_witness :
  Plots.plot_bboxes_in
    (fun _ e => match e with Plots.Rectangle _ _ _ _ _ _ => false
                | _ => true end)
    cpython [lit "aliceblue"]
    {| Plots.width := 640; Plots.height := 480 |}
    (lit "{" ++ q "bbox_2d" ++ lit ":[1,1,0,0]," ++ q "label" ++ lit ":"
     ++ q "cat" ++ lit "}")
  = play
      (fun _ e => match e with Plots.Rectangle _ _ _ _ _ _ => false
                  | _ => true end)
      (map Plots.PrintError
         (snd (decode_json_bboxes cpython
                 (lit "{" ++ q "bbox_2d" ++ lit ":[1,1,0,0],"
                  ++ q "label" ++ lit ":" ++ q "cat" ++ lit "}")))
       ++ [Plots.PrintRecords (lit "Parsed bboxes: ")
             [[one; one; zero; zero]];
           Plots.PrintDescriptions [lit "cat"]]
       ++ record_calls (bbox_call [lit "aliceblue"] (of_int 640)
                          (of_int 480)) 0
            [[one; one; zero; zero]] [lit "cat"]
       ++ [Plots.Display])
      (Plots.Returned tt).
Proof.
  refine (proj1 (proj2 (proj2
    (plot_bboxes_marks_every_box
       (fun _ e => match e with Plots.Rectangle _ _ _ _ _ _ => false
                   | _ => true end)
       cpython [lit "aliceblue"]
       {| Plots.width := 640; Plots.height := 480 |}
       (lit "{" ++ q "bbox_2d" ++ lit ":[1,1,0,0]," ++ q "label"
        ++ lit ":" ++ q "cat" ++ lit "}")
       [[one; one; zero; zero]] [lit "cat"] (of_int 640) (of_int 480)
       _ _ _)))); vm_compute; reflexivity.
Defined.



(** X10. A plotting function fails before it draws. Whatever the text
    and the image size, if [plot_points] or [plot_bboxes] raises, it
    raises [TypeError] or [OverflowError], never an [IndexError], a
    [ZeroDivisionError] or the [ValueError] of a failed unpacking, and
    by then it has drawn nothing and has not displayed the image. What
    a call into PIL or the notebook raises is outside this statement. *)
Theorem plots_fail_before_drawing rt extra img text t r :
  Plots.plot_points rt extra img text = (t, Plots.Failed r) \/
  Plots.plot_bboxes rt extra img text = (t, Plots.Failed r) ->
  (r = Plots.Escaped TypeError \/ r = Plots.Escaped OverflowError)
  /\ shape_colors t = [] /\ labels_drawn t = [] /\ displays t = 0.
Proof.
  unfold Plots.plot_points, Plots.plot_bboxes.
  rewrite PlotFacts.plot_points_with, PlotFacts.plot_bboxes_with.
  intros [H|H].
  - apply (PlotFacts.failed_run extra img _ 2 _ (point_call extra) _
             (fun fw fh descs i p d B k h Hw Hh Hp Hd =>
                PlotFacts.point_mark_run Plots.quiet extra img descs i p d
                  fw fh B k h Hw Hh Hp Hd)
             (fun descs i p B k h =>
                PlotFacts.point_mark_overflow Plots.quiet extra img descs
                  i p B k h)
             (PlotFacts.point_call_drawn extra)
             (PlotFacts.decoded_points rt text)) in H; auto.
    intros e He. rewrite decode_json_points_extract in He.
    exact (extract_escapes _ (point_item_escapes rt) _ _ He).
  - apply (PlotFacts.failed_run extra img _ 4 _ (bbox_call extra) _
             (fun fw fh descs i p d B k h Hw Hh Hp Hd =>
                PlotFacts.bbox_mark_run Plots.quiet extra img descs i p d
                  fw fh B k h Hw Hh Hp Hd)
             (fun descs i p B k h =>
                PlotFacts.bbox_mark_overflow Plots.quiet extra img descs
                  i p B k h)
             (PlotFacts.bbox_call_drawn extra)
             (PlotFacts.decoded_bboxes rt text)) in H; auto.
    intros e He. rewrite decode_json_bboxes_extract in He.
    exact (extract_escapes _ (bbox_item_escapes rt) _ _ He).
Qed.

Lemma plots_fail_before_drawing_witness :
  (Plots.Escaped TypeError = Plots.Escaped TypeError \/
   Plots.Escaped TypeError = Plots.Escaped OverflowError)
  /\ shape_colors [] = [] /\ labels_drawn [] = [] /\ displays [] = 0.
Proof.
  apply (plots_fail_before_drawing cpython []
           {| Plots.width := 640; Plots.height := 480 |} (lit "[null]")).
  left. vm_compute. reflexivity.
Defined.

(** X11. Up to 23 records get colours of their own. In a run of
    [plot_points] or [plot_bboxes] that returns with at most 23 ellipses
    or rectangles drawn, their colours are the first names written out
    in the function, in that order, whatever PIL's colour map holds, and
    no two of them are the same. *)
Theorem up_to_23_records_get_distinct_colours rt extra img text t :
  Plots.plot_points rt extra img text = (t, Plots.Returned tt) \/
  Plots.plot_bboxes rt extra img text = (t, Plots.Returned tt) ->
  length (shape_colors t) <= 23 ->
  shape_colors t = firstn (length (shape_colors t)) Plots.palette
  /\ NoDup (shape_colors t).
Proof.
  unfold Plots.plot_points, Plots.plot_bboxes.
  rewrite PlotFacts.plot_points_with, PlotFacts.plot_bboxes_with.
  intros H Hn.
  assert (Hs : exists n,
            shape_colors t = map (colour extra) (List.seq 0 n)).
  { destruct H as [H|H].
    - apply (PlotFacts.returned_run extra img _ 2 _ (point_call extra) _
               (fun fw fh descs i p d B k h Hw Hh Hp Hd =>
                  PlotFacts.point_mark_run Plots.quiet extra img descs i p
                    d fw fh B k h Hw Hh Hp Hd)
               (fun descs i p B k h =>
                  PlotFacts.point_mark_overflow Plots.quiet extra img
                    descs i p B k h)
               (PlotFacts.point_call_drawn extra)
               (PlotFacts.decoded_points rt text)) in H; auto.
      intros e He. rewrite decode_json_points_extract in He.
      exact (extract_escapes _ (point_item_escapes rt) _ _ He).
    - apply (PlotFacts.returned_run extra img _ 4 _ (bbox_call extra) _
               (fun fw fh descs i p d B k h Hw Hh Hp Hd =>
                  PlotFacts.bbox_mark_run Plots.quiet extra img descs i p
                    d fw fh B k h Hw Hh Hp Hd)
               (fun descs i p B k h =>
                  PlotFacts.bbox_mark_overflow Plots.quiet extra img
                    descs i p B k h)
               (PlotFacts.bbox_call_drawn extra)
               (PlotFacts.decoded_bboxes rt text)) in H; auto.
      intros e He. rewrite decode_json_bboxes_extract in He.
      exact (extract_escapes _ (bbox_item_escapes rt) _ _ He). }
  destruct Hs as [n Hs]. rewrite Hs in *.
  rewrite length_map, length_seq in *.
  rewrite (PlotFacts.first_colours extra n Hn). split; [reflexivity|].
  apply (NoDup_app_remove_r _ (skipn n Plots.palette)).
  rewrite firstn_skipn. apply PlotFacts.palette_distinct.
Qed.

Lemma up_to_23_records_get_distinct_colours_witness :
  shape_colors
    (fst (Plots.plot_points cpython []
            {| Plots.width := 640; Plots.height := 480 |}
            (lit "[{" ++ q "point_2d" ++ lit ":[0.5,0.5]},{"
             ++ q "point_2d" ++ lit ":[0.1,0.2]}]")))
  = [lit "red"; lit "green"]
  /\ NoDup [lit "red"; lit "green"].
Proof.
  apply (up_to_23_records_get_distinct_colours cpython []
           {| Plots.width := 640; Plots.height := 480 |}
           (lit "[{" ++ q "point_2d" ++ lit ":[0.5,0.5]},{"
            ++ q "point_2d" ++ lit ":[0.1,0.2]}]")).
  - left. vm_compute. reflexivity.
  - vm_compute. lia.
Defined.
